(** * kenko: a shallow embedding of the health checker

    The checker of [internal/monitor/monitor.go] probes a list of HTTP
    targets on a fixed interval, keeps the latest [Result] per target in a
    map guarded by a mutex and, in its Redis-backed revision, mirrors every
    result into the hash [kenko:results].

    The file has three layers:
    - the probe [check], a function in a small state monad over what one
      call observes of the outside world (clock readings, the HTTP round
      trip);
    - the mirror operations [storeResult] and the Redis-first [Results];
    - the scheduler [Run] with [checkAll] and its goroutines, as executable
      step functions over labelled transitions, so that every interleaving
      of the goroutines, of the ticker and of the cancellation signal is a
      list of labels. *)

From Stdlib Require Import ZArith.
From stdpp Require Import base option strings list gmap fin_maps.

Local Open Scope Z_scope.

(** ** Data model *)

(** Go's [error], kept as the text [%v] prints. *)
Definition error : Type := string.

(** A Go call returning [(A, error)]. *)
Inductive outcome (A : Type) : Type :=
| Ok (a : A)
| Failed (err : error).
Arguments Ok {A} a.
Arguments Failed {A} err.

(** [time.Time] and [time.Duration] in nanoseconds. *)
Definition Time : Type := Z.
Definition Duration : Type := Z.
Definition Second : Duration := 1000000000.

(** [type Status string] with its two constants. *)
Definition Status : Type := string.
Definition StatusHealthy : Status := "healthy".
Definition StatusUnhealthy : Status := "unhealthy".
Definition redisKey : string := "kenko:results".

Module config.
Record Target : Type := mkTarget { Name : string; URL : string }.
End config.

Module Result.
(** An omitted field of a Go struct literal holds its zero value: [0]
    for [StatusCode], the empty string for [Error]. *)
Record Result : Type := mk {
  Target : string;
  URL : string;
  Status : Status;
  StatusCode : Z;
  Latency : Duration;
  Error : string;
  CheckedAt : Time
}.
End Result.
Abbreviation Result := Result.Result.

Module http.
Definition MethodGet : string := "GET".
Record Response : Type := mkResponse { StatusCode : Z }.
(** [http.Client]: only its [Timeout] is configured. *)
Record Client : Type := mkClient { Timeout : Duration }.
End http.

(** [context.Context] values the program builds. *)
Inductive Ctx : Type :=
| Background
| NotifyContext (parent : Ctx)
| WithTimeout (parent : Ctx) (d : Duration).

(** ** The outside world of one probe *)

(** What one call of [check] observes: the successive readings of the wall
    clock and what the HTTP client answers. A DNS failure, a refused
    connection, an expired [Timeout] and a cancelled context all surface as
    [Failed] from [roundtrip]. *)
Record Net (Request : Type) : Type := mkNet {
  wall : nat → Time;
  ticks : nat;
  roundtrip : http.Client → Request → outcome http.Response
}.
Arguments mkNet {Request} wall ticks roundtrip.
Arguments wall {Request} n i.
Arguments ticks {Request} n.
Arguments roundtrip {Request} n cl req.

(** State monad over the world of a probe, with stdpp's [x ← m; k]. *)
Definition M (W A : Type) : Type := W → A * W.
#[global] Instance M_ret {W} : MRet (M W) := fun A a w => (a, w).
#[global] Instance M_bind {W} : MBind (M W) :=
  fun A B k m w => let (a, w') := m w in k a w'.

Section Probe.
(** [net/http] is outside the repository: the request type and the
    constructor [http.NewRequestWithContext], which fails on a URL it
    cannot parse, are taken as given. *)
Variable Request : Type.
Variable NewRequestWithContext : Ctx → string → string → outcome Request.

Definition time_Now : M (Net Request) Time :=
  fun w => (wall w (ticks w), mkNet (wall w) (S (ticks w)) (roundtrip w)).

Definition time_Since (start : Time) : M (Net Request) Duration :=
  now ← time_Now ; mret (now - start).

Definition client_Do (cl : http.Client) (req : Request)
  : M (Net Request) (outcome http.Response) :=
  fun w => (roundtrip w cl req, w).

(** [fmt.Sprintf(prefix + "%v", err)]. *)
Definition Sprintf_v (prefix : string) (err : error) : string :=
  prefix +:+ err.

(** [func (c *Checker) check(ctx, target) Result]; the receiver is used
    for its [client] only. The fields of each struct literal are
    evaluated in the order they are written, so the clock is read for
    [Latency] before [CheckedAt]. The deferred [resp.Body.Close()] changes
    nothing the result depends on. *)
Definition check (client : http.Client) (ctx : Ctx) (target : config.Target)
  : M (Net Request) Result :=
  start ← time_Now ;
  match NewRequestWithContext ctx http.MethodGet (config.URL target) with
  | Failed err =>
      latency ← time_Since start ;
      checkedAt ← time_Now ;
      mret (Result.mk (config.Name target) (config.URL target)
             StatusUnhealthy 0 latency
             (Sprintf_v "bad request: " err) checkedAt)
  | Ok req =>
      resp ← client_Do client req ;
      match resp with
      | Failed err =>
          latency ← time_Since start ;
          checkedAt ← time_Now ;
          mret (Result.mk (config.Name target) (config.URL target)
                 StatusUnhealthy 0 latency
                 (Sprintf_v "request failed: " err) checkedAt)
      | Ok resp =>
          let status :=
            if 400 <=? http.StatusCode resp then StatusUnhealthy
            else StatusHealthy in
          latency ← time_Since start ;
          checkedAt ← time_Now ;
          mret (Result.mk (config.Name target) (config.URL target)
                 status (http.StatusCode resp) latency "" checkedAt)
      end
  end.
End Probe.

(** ** The logger, the metrics and the Redis mirror *)

(** The lines the checker writes through [slog]. *)
Inductive LogEntry : Type :=
| Info_checker_starting (targets : nat) (interval : Duration)
| Info_checker_stopping
| Info_check_complete (target : string) (status : Status) (latency : Duration)
| Error_failed_to_marshal (target : string) (err : error)
| Warn_failed_to_write_redis (target : string) (err : error).

(** The three Prometheus collectors, by label values. The histogram keeps
    the observed latencies; their conversion to seconds is left out. *)
Record Metrics : Type := mkMetrics {
  checkDuration : gmap string (list Duration);
  checkTotal : gmap (string * string) nat;
  targetUp : gmap string Z
}.

(** The three updates a goroutine makes, one statement each:
    [checkDuration.WithLabelValues(t.Name).Observe(...)],
    [checkTotal.WithLabelValues(t.Name, string(result.Status)).Inc()] and
    [targetUp.WithLabelValues(t.Name).Set(1)] or [.Set(0)]. *)
Definition Observe (name : string) (r : Result) (m : Metrics) : Metrics :=
  mkMetrics
    (<[name := Result.Latency r :: default [] (checkDuration m !! name)]>
       (checkDuration m))
    (checkTotal m) (targetUp m).

Definition Inc (name : string) (r : Result) (m : Metrics) : Metrics :=
  mkMetrics (checkDuration m)
    (<[(name, Result.Status r) :=
         S (default O (checkTotal m !! (name, Result.Status r)))]>
       (checkTotal m))
    (targetUp m).

Definition Set_up (name : string) (r : Result) (m : Metrics) : Metrics :=
  mkMetrics (checkDuration m) (checkTotal m)
    (<[name := if decide (Result.Status r = StatusHealthy) then 1 else 0]>
       (targetUp m)).

(** The Redis server: hashes by key. Whether a command goes through is the
    environment's choice, [fault] being the error of a command that does
    not (the deadline or cancellation of its [ctx] included); a command
    that fails leaves the hash as it was. *)
Definition HSet (ctx : Ctx) (fault : option error) (key field value : string)
    (db : gmap string (gmap string string))
  : option error * gmap string (gmap string string) :=
  match fault with
  | Some err => (Some err, db)
  | None => (None, <[key := <[field := value]> (default ∅ (db !! key))]> db)
  end.

Definition HGetAll (ctx : Ctx) (fault : option error) (key : string)
    (db : gmap string (gmap string string)) : outcome (gmap string string) :=
  match fault with
  | Some err => Failed err
  | None => Ok (default ∅ (db !! key))
  end.

(** ** The checker *)

(** The two revisions of [monitor.go]: results in memory only, or mirrored
    into Redis as well ([rdb] field, [storeResult], Redis-first
    [Results]). *)
Inductive Revision : Type := InMemory | RedisBacked.

(** The fields of [Checker] that never change after [NewChecker]. *)
Record Checker : Type := mkChecker {
  client : http.Client;
  targets : list config.Target;
  interval : Duration
}.

Definition NewChecker (targets : list config.Target)
    (interval timeout : Duration) : Checker :=
  mkChecker (http.mkClient timeout) targets interval.

(** Where a goroutine of [checkAll] stands. From [AtStore] on it holds the
    result [c.check] returned. [AtMetrics], [AtInc] and [AtSet] are the
    points before the three Prometheus statements. *)
Inductive GoPc : Type :=
| AtCheck
| AtStore (r : Result)
| AtMirror (r : Result)
| AtMetrics (r : Result)
| AtInc (r : Result)
| AtSet (r : Result)
| AtLog (r : Result)
| Exited (r : Result).

(** A goroutine [go func(t config.Target)], tagged with the cycle (call of
    [checkAll]) that spawned it. *)
Record Goroutine : Type := mkGoroutine {
  g_cycle : nat;
  g_target : config.Target;
  g_pc : GoPc
}.

(** Where [Run] stands. [InCheckAll rest] is inside [checkAll] with [rest]
    still to be ranged over; with [rest = []] it is at [wg.Wait()].
    [AtSelect]: [checkAll] has returned and [Run] is at its [select] or,
    back from the first call and with the ticker not yet created, on its
    way there. [Panicked]: [time.NewTicker] has panicked; nothing of [Run]
    runs any more. *)
Inductive RunPc : Type :=
| Entry
| InCheckAll (rest : list config.Target)
| AtSelect
| Returned
| Panicked.

(** [time.Ticker]: its channel has room for one tick. *)
Inductive Ticker : Type :=
| NotCreated
| Ticking (pending : bool)
| Stopped.

Record State : Type := mkState {
  results : gmap string Result;
  rdb : gmap string (gmap string string);
  metrics : Metrics;
  logger : list LogEntry;
  pc : RunPc;
  pool : list Goroutine;
  cycle : nat;
  completed : nat;
  ticker : Ticker;
  done : bool
}.

Definition exited (g : Goroutine) : bool :=
  match g_pc g with Exited _ => true | _ => false end.

(** The result [c.check] handed to a goroutine, once it has one. *)
Definition produced (p : GoPc) : option Result :=
  match p with
  | AtCheck => None
  | AtStore r | AtMirror r | AtMetrics r | AtInc r | AtSet r | AtLog r
  | Exited r => Some r
  end.

(** The result a goroutine has written to [c.results], once it has. *)
Definition stored (p : GoPc) : option Result :=
  match p with
  | AtCheck | AtStore _ => None
  | AtMirror r | AtMetrics r | AtInc r | AtSet r | AtLog r | Exited r =>
      Some r
  end.

(** A bound on the actions a goroutine has left. *)
Definition todo (p : GoPc) : nat :=
  match p with
  | AtCheck => 7
  | AtStore _ => 6
  | AtMirror _ => 5
  | AtMetrics _ => 4
  | AtInc _ => 3
  | AtSet _ => 2
  | AtLog _ => 1
  | Exited _ => 0
  end.

(** Setters for the fields a transition changes. *)
Definition set_results (m : gmap string Result) (s : State) : State :=
  mkState m (rdb s) (metrics s) (logger s) (pc s) (pool s) (cycle s)
    (completed s) (ticker s) (done s).
Definition set_rdb (db : gmap string (gmap string string)) (s : State)
  : State :=
  mkState (results s) db (metrics s) (logger s) (pc s) (pool s) (cycle s)
    (completed s) (ticker s) (done s).
Definition set_metrics (m : Metrics) (s : State) : State :=
  mkState (results s) (rdb s) m (logger s) (pc s) (pool s) (cycle s)
    (completed s) (ticker s) (done s).
Definition log (e : LogEntry) (s : State) : State :=
  mkState (results s) (rdb s) (metrics s) (logger s ++ [e]) (pc s) (pool s)
    (cycle s) (completed s) (ticker s) (done s).
Definition set_pc (p : RunPc) (s : State) : State :=
  mkState (results s) (rdb s) (metrics s) (logger s) p (pool s) (cycle s)
    (completed s) (ticker s) (done s).
Definition set_pool (gs : list Goroutine) (s : State) : State :=
  mkState (results s) (rdb s) (metrics s) (logger s) (pc s) gs (cycle s)
    (completed s) (ticker s) (done s).
Definition set_cycle (n : nat) (s : State) : State :=
  mkState (results s) (rdb s) (metrics s) (logger s) (pc s) (pool s) n
    (completed s) (ticker s) (done s).
Definition set_completed (n : nat) (s : State) : State :=
  mkState (results s) (rdb s) (metrics s) (logger s) (pc s) (pool s) (cycle s)
    n (ticker s) (done s).
Definition set_ticker (t : Ticker) (s : State) : State :=
  mkState (results s) (rdb s) (metrics s) (logger s) (pc s) (pool s) (cycle s)
    (completed s) t (done s).
Definition set_done (b : bool) (s : State) : State :=
  mkState (results s) (rdb s) (metrics s) (logger s) (pc s) (pool s) (cycle s)
    (completed s) (ticker s) b.

(** [NewChecker] makes an empty [results] map; nothing runs yet. *)
Definition init (db : gmap string (gmap string string)) : State :=
  mkState ∅ db (mkMetrics ∅ ∅ ∅) [] Entry [] O O NotCreated false.

(** [context.WithTimeout(context.Background(), 2*time.Second)], the context
    of the Redis read in [Results]. *)
Definition Results_ctx : Ctx := WithTimeout Background (2 * Second).

(** [for k, v := range m { out[k] = v }] into a fresh map. *)
Definition copy_map {V : Type} (m : gmap string V) : gmap string V :=
  map_fold (fun k v out => <[k := v]> out) ∅ m.

Section Checker.
Variable Request : Type.
Variable NewRequestWithContext : Ctx → string → string → outcome Request.
(** [encoding/json] on [Result], outside the repository as well. *)
Variable json_Marshal : Result → outcome string.
Variable json_Unmarshal : string → outcome Result.

Variable rev : Revision.
Variable c : Checker.
(** The context [main] hands to [Run]. *)
Variable ctx : Ctx.

(** [func (c *Checker) storeResult(ctx, name, result)]: returns nothing;
    both failures end in a log line. *)
Definition storeResult (fault : option error) (ctx : Ctx) (name : string)
    (result : Result) (s : State) : State :=
  match json_Marshal result with
  | Failed err => log (Error_failed_to_marshal name err) s
  | Ok data =>
      let (err, db) := HSet ctx fault redisKey name data (rdb s) in
      match err with
      | Some err => log (Warn_failed_to_write_redis name err) (set_rdb db s)
      | None => set_rdb db s
      end
  end.

(** What one field of the hash decodes to, if anything. *)
Definition parse (data : string) : option Result :=
  match json_Unmarshal data with
  | Ok r => Some r
  | Failed _ => None
  end.

(** The loop of the Redis-first [Results] over the fetched hash: entries
    that do not unmarshal are skipped. *)
Definition decode (vals : gmap string string) : gmap string Result :=
  map_fold (fun name data out =>
              match json_Unmarshal data with
              | Ok r => <[name := r]> out
              | Failed _ => out
              end) ∅ vals.

(** [func (c *Checker) Results() map[string]Result]. In memory: a copy
    under the read lock. Redis-backed: the hash when [HGetAll] succeeds
    with at least one field, else the same copy. [fault] is the error of
    the [HGetAll], if it fails. *)
Definition Results (fault : option error) (s : State) : gmap string Result :=
  match rev with
  | InMemory => copy_map (results s)
  | RedisBacked =>
      match HGetAll Results_ctx fault redisKey (rdb s) with
      | Ok vals =>
          if decide (0 < size vals)%nat then decode vals
          else copy_map (results s)
      | Failed _ => copy_map (results s)
      end
  end.

(** *** Transitions *)

(** One label per atomic action of [Run], of a goroutine of [checkAll],
    or of the environment. Goroutines are named by their position in
    [pool]. *)
Inductive Label : Type :=
| RunStart
| Spawn
| WaitReturn
| NewTicker
| SelectDone
| SelectTick
| GoCheck (i : nat) (w : Net Request)
| GoStore (i : nat)
| GoMirror (i : nat) (fault : option error)
| GoObserve (i : nat)
| GoInc (i : nat)
| GoSet (i : nat)
| GoLog (i : nat)
| Tick
| Cancel.

Definition set_goroutine (i : nat) (g : Goroutine) (p : GoPc) (s : State)
  : State :=
  set_pool (<[i := mkGoroutine (g_cycle g) (g_target g) p]> (pool s)) s.

(** The body of [go func(t config.Target) { ... }(target)], one action at
    a time. A goroutine moves whenever it is picked, wherever [Run] and
    the other goroutines stand.
    - [GoCheck]: [result := c.check(ctx, t)], in the world [w]; the call
      shares nothing with the rest of the checker, so it is one action;
    - [GoStore]: [c.mu.Lock(); c.results[t.Name] = result; c.mu.Unlock()];
    - [GoMirror]: [c.storeResult(ctx, t.Name, result)] (Redis-backed);
    - [GoObserve], [GoInc], [GoSet]: the three Prometheus updates, which
      no lock holds together: other goroutines, and a scrape, can come in
      between;
    - [GoLog]: the "check complete" line, then the deferred [wg.Done()]. *)
Definition go_func (l : Label) (s : State) : option State :=
  match l with
  | GoCheck i w =>
      g ← pool s !! i;
      match g_pc g with
      | AtCheck =>
          let r := fst (check Request NewRequestWithContext
                          (client c) ctx (g_target g) w) in
          Some (set_goroutine i g (AtStore r) s)
      | _ => None
      end
  | GoStore i =>
      g ← pool s !! i;
      match g_pc g with
      | AtStore r =>
          let s' := set_results
                      (<[config.Name (g_target g) := r]> (results s)) s in
          Some (set_goroutine i g
                  (match rev with
                   | InMemory => AtMetrics r
                   | RedisBacked => AtMirror r
                   end) s')
      | _ => None
      end
  | GoMirror i fault =>
      g ← pool s !! i;
      match g_pc g with
      | AtMirror r =>
          Some (set_goroutine i g (AtMetrics r)
                  (storeResult fault ctx (config.Name (g_target g)) r s))
      | _ => None
      end
  | GoObserve i =>
      g ← pool s !! i;
      match g_pc g with
      | AtMetrics r =>
          Some (set_goroutine i g (AtInc r)
                  (set_metrics
                     (Observe (config.Name (g_target g)) r (metrics s)) s))
      | _ => None
      end
  | GoInc i =>
      g ← pool s !! i;
      match g_pc g with
      | AtInc r =>
          Some (set_goroutine i g (AtSet r)
                  (set_metrics
                     (Inc (config.Name (g_target g)) r (metrics s)) s))
      | _ => None
      end
  | GoSet i =>
      g ← pool s !! i;
      match g_pc g with
      | AtSet r =>
          Some (set_goroutine i g (AtLog r)
                  (set_metrics
                     (Set_up (config.Name (g_target g)) r (metrics s)) s))
      | _ => None
      end
  | GoLog i =>
      g ← pool s !! i;
      match g_pc g with
      | AtLog r =>
          Some (set_goroutine i g (Exited r)
                  (log (Info_check_complete (config.Name (g_target g))
                          (Result.Status r) (Result.Latency r)) s))
      | _ => None
      end
  | _ => None
  end.

(** [wg.Wait()] of the running [checkAll]: the counter is the number of
    goroutines this call spawned that have not yet run [wg.Done()]. *)
Definition wg_zero (s : State) : bool :=
  forallb (fun g => negb (Nat.eqb (g_cycle g) (cycle s)) || exited g)
    (pool s).

(** [func (c *Checker) checkAll(ctx)], one action at a time:
    - [Spawn]: one iteration of [for _, target := range c.targets]:
      [wg.Add(1)] and the [go] statement;
    - [WaitReturn]: [wg.Wait()] returns and so does [checkAll], to
      [Run]. *)
Definition checkAll (l : Label) (s : State) : option State :=
  match l, pc s with
  | Spawn, InCheckAll (t :: rest) =>
      Some (set_pc (InCheckAll rest)
              (set_pool (pool s ++ [mkGoroutine (cycle s) t AtCheck]) s))
  | WaitReturn, InCheckAll [] =>
      if wg_zero s then
        Some (set_pc AtSelect (set_completed (S (completed s)) s))
      else None
  | _, _ => None
  end.

(** [func (c *Checker) Run(ctx)], one action at a time:
    - [RunStart]: the "checker starting" line and the first call
      [c.checkAll(ctx)];
    - [NewTicker]: back from that call,
      [ticker := time.NewTicker(c.interval)], which panics when the
      interval is not positive;
    - [SelectDone]: [case <-ctx.Done()]: log and return (the deferred
      [ticker.Stop()] runs);
    - [SelectTick]: [case <-ticker.C]: call [c.checkAll(ctx)].
    The [select] is reached only with the ticker created.
    Both calls of [checkAll] are plain calls: [Run] goes on only when
    [checkAll] has returned. When both cases of the [select] are ready,
    either label applies. *)
Definition Run (l : Label) (s : State) : option State :=
  match l, pc s with
  | RunStart, Entry =>
      Some (set_pc (InCheckAll (targets c))
              (set_cycle (S (cycle s))
                 (log (Info_checker_starting (length (targets c))
                         (interval c)) s)))
  | NewTicker, AtSelect =>
      match ticker s with
      | NotCreated =>
          if decide (0 < interval c) then Some (set_ticker (Ticking false) s)
          else Some (set_pc Panicked s)
      | _ => None
      end
  | SelectDone, AtSelect =>
      match ticker s with
      | NotCreated => None
      | _ =>
          if done s then
            Some (set_pc Returned
                    (set_ticker Stopped (log Info_checker_stopping s)))
          else None
      end
  | SelectTick, AtSelect =>
      match ticker s with
      | Ticking true =>
          Some (set_pc (InCheckAll (targets c))
                  (set_cycle (S (cycle s)) (set_ticker (Ticking false) s)))
      | _ => None
      end
  | _, _ => None
  end.

(** The environment:
    - [Tick]: the running ticker fires; a tick nobody has received yet
      stays the only one in the channel;
    - [Cancel]: SIGINT or SIGTERM closes [ctx.Done()]. *)
Definition env_step (l : Label) (s : State) : option State :=
  match l with
  | Tick =>
      match ticker s with
      | Ticking _ => Some (set_ticker (Ticking true) s)
      | _ => None
      end
  | Cancel => Some (set_done true s)
  | _ => None
  end.

Definition step (l : Label) (s : State) : option State :=
  match l with
  | RunStart | NewTicker | SelectDone | SelectTick => Run l s
  | Spawn | WaitReturn => checkAll l s
  | GoCheck _ _ | GoStore _ | GoMirror _ _ | GoObserve _ | GoInc _ | GoSet _
  | GoLog _ =>
      go_func l s
  | Tick | Cancel => env_step l s
  end.

(** An execution: the labels taken, in order. *)
Fixpoint exec (ls : list Label) (s : State) : option State :=
  match ls with
  | [] => Some s
  | l :: ls => s' ← step l s; exec ls s'
  end.

Definition reachable (db : gmap string (gmap string string)) (s : State)
  : Prop :=
  ∃ ls, exec ls (init db) = Some s.

(** A label that begins a cycle, that is, calls [checkAll]. *)
Definition begins_cycle (l : Label) : bool :=
  match l with RunStart | SelectTick => true | _ => false end.

(** Some goroutine is still running. *)
Definition in_flight (s : State) : bool :=
  existsb (fun g => negb (exited g)) (pool s).

(** Between cycles: [Run] is at its [select] or has returned. *)
Definition quiescent (s : State) : bool :=
  match pc s with AtSelect | Returned => true | _ => false end.
(** A label of the environment, as opposed to an action of the program. *)
Definition is_env (l : Label) : bool :=
  match l with Tick | Cancel => true | _ => false end.

(** A bound on the actions of [Run] and of the goroutines before the
    running [checkAll] returns. *)
Definition fuel (s : State) : nat :=
  match pc s with InCheckAll rest => S (8 * length rest) | _ => O end
  + sum_list_with (fun g => todo (g_pc g)) (pool s).

(** The body of a goroutine for target [t] as a relation: from which point
    to which it moves, and what that does to [c.results]. *)
Inductive go_trans (t : config.Target)
  : GoPc → GoPc → gmap string Result → gmap string Result → Prop :=
| go_check w m :
    go_trans t AtCheck
      (AtStore (fst (check Request NewRequestWithContext (client c) ctx t w)))
      m m
| go_store r p m :
    p = AtMetrics r ∨ p = AtMirror r →
    go_trans t (AtStore r) p m (<[config.Name t := r]> m)
| go_mirror r m : go_trans t (AtMirror r) (AtMetrics r) m m
| go_observe r m : go_trans t (AtMetrics r) (AtInc r) m m
| go_inc r m : go_trans t (AtInc r) (AtSet r) m m
| go_set r m : go_trans t (AtSet r) (AtLog r) m m
| go_log r m : go_trans t (AtLog r) (Exited r) m m.

(** *** The invariant of the scheduler

    [pool] splits into the goroutines of earlier cycles, [old], all of
    which have exited, and those of the latest cycle, [cur], one per target
    ranged over so far. *)
Record Inv (s : State) (old cur : list Goroutine) : Prop := mkInv {
  inv_pool : pool s = old ++ cur;
  inv_old :
    Forall (fun g => exited g = true ∧ (g_cycle g < cycle s)%nat) old;
  inv_cur : Forall (fun g => g_cycle g = cycle s) cur;
  inv_pc :
    match pc s with
    | Entry =>
        cycle s = O ∧ completed s = O ∧ pool s = [] ∧ results s = ∅
    | InCheckAll rest =>
        (g_target <$> cur) ++ rest = targets c ∧ cycle s = S (completed s)
    | AtSelect =>
        g_target <$> cur = targets c ∧ cycle s = completed s
        ∧ (1 ≤ completed s)%nat ∧ Forall (fun g => exited g = true) cur
    | Returned =>
        g_target <$> cur = targets c ∧ cycle s = completed s
        ∧ (1 ≤ completed s)%nat ∧ Forall (fun g => exited g = true) cur
        ∧ done s = true
    | Panicked =>
        g_target <$> cur = targets c ∧ cycle s = completed s
        ∧ (1 ≤ completed s)%nat ∧ Forall (fun g => exited g = true) cur
    end;
  inv_produced :
    Forall (fun g => ∀ r, produced (g_pc g) = Some r →
                          ∃ w, r = fst (check Request NewRequestWithContext
                                          (client c) ctx (g_target g) w))
      (pool s);
  inv_dom_sub :
    ∀ k, is_Some (results s !! k) → k ∈ config.Name <$> targets c;
  inv_dom_stored :
    Forall (fun g => is_Some (stored (g_pc g)) →
                     is_Some (results s !! config.Name (g_target g)))
      (pool s);
  inv_dom_full :
    (1 ≤ completed s)%nat →
    ∀ t, t ∈ targets c → is_Some (results s !! config.Name t);
  inv_latest :
    NoDup (config.Name <$> targets c) →
    Forall (fun g => ∀ r, stored (g_pc g) = Some r →
                          results s !! config.Name (g_target g) = Some r)
      cur
}.

Definition invariant (s : State) : Prop := ∃ old cur, Inv s old cur.
End Checker.

Arguments RunStart {Request}.
Arguments Spawn {Request}.
Arguments WaitReturn {Request}.
Arguments NewTicker {Request}.
Arguments SelectDone {Request}.
Arguments SelectTick {Request}.
Arguments GoCheck {Request} i w.
Arguments GoStore {Request} i.
Arguments GoMirror {Request} i fault.
Arguments GoObserve {Request} i.
Arguments GoInc {Request} i.
Arguments GoSet {Request} i.
Arguments GoLog {Request} i.
Arguments Tick {Request}.
Arguments Cancel {Request}.
Arguments is_env {Request} l.
Arguments begins_cycle {Request} l.

(** A world in which nothing answers, for when any world will do. *)
Definition dead_net {Request : Type} : Net Request :=
  mkNet (fun _ => 0) O (fun _ _ => Failed "connection refused").

(** ** The HTTP handlers *)

(** [time.Duration.Milliseconds]: the integer quotient by a million,
    rounded toward zero. *)
Definition Milliseconds (d : Duration) : Z := d ÷ 1000000.

Module targetResult.
Record targetResult : Type := mk {
  Name : string;
  URL : string;
  Status : string;
  StatusCode : Z;
  LatencyMS : Z;
  Error : string;
  CheckedAt : string
}.
End targetResult.
Abbreviation targetResult := targetResult.targetResult.

Record statusResponse : Type := mkStatusResponse {
  Targets : list targetResult
}.

(** What [json.NewEncoder(w).Encode] writes, as a value. *)
#[local] Unset Elimination Schemes.
Inductive JSON : Type :=
| JString (s : string)
| JNumber (n : Z)
| JArray (items : list JSON)
| JObject (fields : list (string * JSON)).
#[local] Set Elimination Schemes.

(** The keys of an encoded struct, in the order they are written. *)
Definition json_keys (j : JSON) : list string :=
  match j with
  | JObject fields => fields.*1
  | _ => []
  end.

Section Handlers.
Variable json_Unmarshal : string → outcome Result.
Variable rev : Revision.
(** [t.Format(time.RFC3339)], from the [time] package. *)
Variable Format_RFC3339 : Time → string.

(** The struct literal in the loop of [handleStatus]. *)
Definition to_targetResult (r : Result) : targetResult :=
  targetResult.mk (Result.Target r) (Result.URL r) (Result.Status r)
    (Result.StatusCode r) (Milliseconds (Result.Latency r))
    (Result.Error r) (Format_RFC3339 (Result.CheckedAt r)).

(** [resp] after [for _, r := range results { resp.Targets = append(...) }];
    the keys are not used. Go ranges over a map in no fixed order: what
    holds of this list up to the order of its entries holds of Go's. *)
Definition status_resp (results : gmap string Result) : statusResponse :=
  mkStatusResponse
    (map_fold (fun _ r out => out ++ [to_targetResult r]) [] results).

(** [encoding/json] on a [targetResult]: the fields in the order of the
    struct, [status_code] and [error] left out when they hold their zero
    value ([omitempty]). *)
Definition encode_targetResult (t : targetResult) : JSON :=
  JObject
    ([("name", JString (targetResult.Name t));
      ("url", JString (targetResult.URL t));
      ("status", JString (targetResult.Status t))]
     ++ (if decide (targetResult.StatusCode t = 0) then []
         else [("status_code", JNumber (targetResult.StatusCode t))])
     ++ [("latency_ms", JNumber (targetResult.LatencyMS t))]
     ++ (if decide (targetResult.Error t = "") then []
         else [("error", JString (targetResult.Error t))])
     ++ [("checked_at", JString (targetResult.CheckedAt t))]).

Definition encode_statusResponse (resp : statusResponse) : JSON :=
  JObject [("targets", JArray (encode_targetResult <$> Targets resp))].

(** [func handleStatus(checker) http.HandlerFunc]: the body it writes.
    [fault] is that of the [HGetAll] inside [checker.Results()]. *)
Definition handleStatus (fault : option error) (s : State) : JSON :=
  let results := Results json_Unmarshal rev fault s in
  encode_statusResponse (status_resp results).

(** [func handleHealth(checker) http.HandlerFunc]: the checker is not
    looked at. *)
Definition handleHealth (s : State) : JSON :=
  JObject [("status", JString "healthy")].
End Handlers.

(** ** Counting what the checker has done *)

(** The sum of all [kenko_check_total] counters. *)
Definition checks_counted (m : Metrics) : nat :=
  map_fold (fun _ n acc => (n + acc)%nat) O (checkTotal m).

(** The number of latencies the histogram has observed. *)
Definition durations_observed (m : Metrics) : nat :=
  map_fold (fun _ l acc => (length l + acc)%nat) O (checkDuration m).

Definition is_check_complete (e : LogEntry) : bool :=
  match e with Info_check_complete _ _ _ => true | _ => false end.

(** The number of "check complete" lines in a log. *)
Definition lines_complete (l : list LogEntry) : nat :=
  sum_list_with (fun e => if is_check_complete e then 1%nat else O) l.

(** The two lines [Run] itself writes. *)
Definition from_Run (e : LogEntry) : bool :=
  match e with
  | Info_checker_starting _ _ | Info_checker_stopping => true
  | _ => false
  end.

(** Whether a goroutine has made the last of its metrics updates, the
    one of the gauge. *)
Definition past_metrics (p : GoPc) : bool :=
  match p with AtLog _ | Exited _ => true | _ => false end.

(** What a goroutine at a program point has added to the observations of
    the histogram, to the sum of the [kenko_check_total] counters, and to
    the "check complete" lines. *)
Definition observed_at (p : GoPc) : nat :=
  match p with
  | AtInc _ | AtSet _ | AtLog _ | Exited _ => 1%nat
  | _ => O
  end.
Definition counted_at (p : GoPc) : nat :=
  match p with AtSet _ | AtLog _ | Exited _ => 1%nat | _ => O end.
Definition logged_at (p : GoPc) : nat :=
  match p with Exited _ => 1%nat | _ => O end.

(** The result a goroutine of the Redis-backed checker has handed to
    [storeResult], once that call has returned. *)
Definition past_mirror (p : GoPc) : option Result :=
  match p with
  | AtMetrics r | AtInc r | AtSet r | AtLog r | Exited r => Some r
  | _ => None
  end.

(** The value of the [kenko_target_up] gauge for a result. *)
Definition up_value (r : Result) : Z :=
  if decide (Result.Status r = StatusHealthy) then 1 else 0.

(** A label under which no Redis write fails. *)
Definition no_fault {Request : Type} (l : Label Request) : bool :=
  match l with GoMirror _ (Some _) => false | _ => true end.

#[global] Instance Result_eq_dec : EqDecision Result.
Proof. solve_decision. Defined.

(** ** A test double for the outside world *)

(** A small instance of everything the model takes as given, on which the
    definitions above evaluate: requests are the URLs themselves, two URLs
    answer (200 and 500), any other fails to connect, and a URL without
    scheme cannot be parsed. *)
Module Demo.
Definition NewRequestWithContext (ctx : Ctx) (method url : string)
  : outcome string :=
  if String.prefix "http://" url then Ok url
  else Failed "parse: missing protocol scheme".

Definition net : Net string :=
  mkNet (fun i => 1000 + 7 * Z.of_nat i) O
    (fun cl url =>
       if decide (url = "http://x/200") then Ok (http.mkResponse 200)
       else if decide (url = "http://x/500") then Ok (http.mkResponse 500)
       else Failed "dial tcp: no such host").

(** A codec that keeps the target name only; ["garbage"] does not
    decode. *)
Definition json_Marshal (r : Result) : outcome string :=
  if decide (Result.Target r = "") then Failed "unsupported value"
  else Ok (Result.Target r).
Definition json_Unmarshal (data : string) : outcome Result :=
  if decide (data = "garbage") then Failed "invalid character"
  else Ok (Result.mk data "" StatusHealthy 200 0 "" 0).

Definition ok : config.Target := config.mkTarget "ok" "http://x/200".
Definition fail : config.Target := config.mkTarget "fail" "http://x/500".
Definition down : config.Target :=
  config.mkTarget "down" "http://unreachable".
Definition bad : config.Target := config.mkTarget "bad" "::".

Definition checker : Checker :=
  NewChecker [ok; fail; down] (30 * Second) (5 * Second).
Definition ctx : Ctx := NotifyContext Background.

(** A Redis hash left behind by another configuration, with one field
    that does not decode. *)
Definition stale_db : gmap string (gmap string string) :=
  {[ redisKey := {[ "ghost" := "ghost"; "ok" := "garbage" ]} ]}.

(** Executions of the demo checker from its initial state, Redis empty. *)
Definition run (rev : Revision) (ls : list (Label string)) : option State :=
  exec string NewRequestWithContext json_Marshal rev checker ctx ls (init ∅).
Definition state_after (rev : Revision) (ls : list (Label string)) : State :=
  default (init ∅) (run rev ls).

(** One whole cycle of the in-memory checker, goroutines interleaved,
    and the ticker created. *)
Definition first_cycle : list (Label string) :=
  [RunStart; Spawn; Spawn; GoCheck 1 net; Spawn; GoCheck 0 net; GoStore 1;
   GoCheck 2 net; GoStore 0; GoStore 2; GoObserve 0; GoObserve 1; GoInc 1;
   GoObserve 2; GoInc 0; GoSet 1; GoInc 2; GoSet 0; GoSet 2; GoLog 2;
   GoLog 0; GoLog 1; WaitReturn; NewTicker].

(** The ticker fires and a second cycle is under way; it fires again
    while that cycle is running. *)
Definition second_cycle_running : list (Label string) :=
  first_cycle ++ [Tick; SelectTick; Spawn; Spawn; GoCheck 3 net; Tick;
                  Spawn; GoStore 3].

(** The signal arrives after the first cycle. *)
Definition cancelled : list (Label string) := first_cycle ++ [Cancel].

(** The Redis-backed checker with its first goroutine holding a result. *)
Definition redis_first_result : list (Label string) :=
  [RunStart; Spawn; GoCheck 0 net].

End Demo.

(** More checkers for the same world: one without targets, one with a
    single target, and one with two targets that share a name. *)
Module Cases.
Definition idle : Checker := NewChecker [] (30 * Second) (5 * Second).
(** A checker whose interval is zero. *)
Definition hasty : Checker := NewChecker [Demo.ok] 0 (5 * Second).
Definition single : Checker :=
  NewChecker [Demo.ok] (30 * Second) (5 * Second).
Definition twin : config.Target := config.mkTarget "ok" "http://x/500".
Definition twins : Checker :=
  NewChecker [Demo.ok; twin] (30 * Second) (5 * Second).

(** What the probe of [Demo.ok] returns in [Demo.net]. *)
Definition probe_ok : Result :=
  fst (check string Demo.NewRequestWithContext (client single) Demo.ctx
         Demo.ok Demo.net).

(** A codec that is a table with one row: it encodes [probe_ok] and
    nothing else, and decodes what it encodes. *)
Definition json_Marshal (r : Result) : outcome string :=
  if decide (r = probe_ok) then Ok "{ok}" else Failed "unsupported value".
Definition json_Unmarshal (data : string) : outcome Result :=
  if decide (data = "{ok}") then Ok probe_ok
  else Failed "invalid character".

(** A stand-in for [time.Time.Format] that tells the first second of the
    epoch from any other time. *)
Definition Format_RFC3339 (t : Time) : string :=
  if decide (0 ≤ t < Second) then "1970-01-01T00:00:00Z" else "another time".

(** One whole cycle of the Redis-backed [single], every write going
    through. *)
Definition mirrored_cycle : list (Label string) :=
  [RunStart; Spawn; GoCheck 0 Demo.net; GoStore 0; GoMirror 0 None;
   GoObserve 0; GoInc 0; GoSet 0; GoLog 0; WaitReturn].
Definition after_mirrored_cycle : State :=
  default (init ∅)
    (exec string Demo.NewRequestWithContext json_Marshal RedisBacked single
       Demo.ctx mirrored_cycle (init ∅)).

(** A cycle of [idle]: nothing to spawn, nothing to wait for. *)
Definition idle_cycle : list (Label string) := [RunStart; WaitReturn].

(** The first cycle of [hasty], and its call of [time.NewTicker]. *)
Definition hasty_cycle : list (Label string) :=
  [RunStart; Spawn; GoCheck 0 Demo.net; GoStore 0; GoObserve 0; GoInc 0;
   GoSet 0; GoLog 0; WaitReturn; NewTicker].
End Cases.

(** * Properties *)

(** ** The probe *)

Section ProbeFacts.
Variable Request : Type.
Variable NewRequestWithContext : Ctx → string → string → outcome Request.

Local Abbreviation check := (check Request NewRequestWithContext).
Local Abbreviation new_request ctx target :=
  (NewRequestWithContext ctx http.MethodGet (config.URL target)).

(** [check] reads the clock three times on every path and leaves the
    rest of its world alone. *)
Lemma check_world client ctx target w :
  snd (check client ctx target w)
  = mkNet (wall w) (S (S (S (ticks w)))) (roundtrip w).
Proof.
  unfold check, mbind, M_bind, time_Since, time_Now, client_Do, mret, M_ret.
  destruct (new_request ctx target) as [req|err]; cbn; [|done].
  destruct (roundtrip w client req); done.
Qed.

(** The three shapes of result, one per path of [check]. *)
Lemma check_bad_request client ctx target w err :
  new_request ctx target = Failed err →
  fst (check client ctx target w)
  = Result.mk (config.Name target) (config.URL target) StatusUnhealthy 0
      (wall w (S (ticks w)) - wall w (ticks w))
      ("bad request: " +:+ err) (wall w (S (S (ticks w)))).
Proof.
  intros E. unfold check, mbind, M_bind, time_Since, time_Now, mret, M_ret.
  cbn. by rewrite E.
Qed.

Lemma check_request_failed client ctx target w req err :
  new_request ctx target = Ok req →
  roundtrip w client req = Failed err →
  fst (check client ctx target w)
  = Result.mk (config.Name target) (config.URL target) StatusUnhealthy 0
      (wall w (S (ticks w)) - wall w (ticks w))
      ("request failed: " +:+ err) (wall w (S (S (ticks w)))).
Proof.
  intros E1 E2.
  unfold check, mbind, M_bind, time_Since, time_Now, client_Do, mret, M_ret.
  cbn. rewrite E1. cbn. by rewrite E2.
Qed.

Lemma check_response client ctx target w req resp :
  new_request ctx target = Ok req →
  roundtrip w client req = Ok resp →
  fst (check client ctx target w)
  = Result.mk (config.Name target) (config.URL target)
      (if 400 <=? http.StatusCode resp then StatusUnhealthy
       else StatusHealthy)
      (http.StatusCode resp)
      (wall w (S (ticks w)) - wall w (ticks w))
      "" (wall w (S (S (ticks w)))).
Proof.
  intros E1 E2.
  unfold check, mbind, M_bind, time_Since, time_Now, client_Do, mret, M_ret.
  cbn. rewrite E1. cbn. by rewrite E2.
Qed.

(** Every call of [check] takes exactly one of the three paths. *)
Lemma check_paths client ctx target w :
  (∃ err, new_request ctx target = Failed err)
  ∨ (∃ req err, new_request ctx target = Ok req
                ∧ roundtrip w client req = Failed err)
  ∨ (∃ req resp, new_request ctx target = Ok req
                 ∧ roundtrip w client req = Ok resp).
Proof.
  destruct (new_request ctx target) as [req|err]; [|left; by exists err].
  right. destruct (roundtrip w client req) as [resp|err] eqn:E.
  - right. by exists req, resp.
  - left. by exists req, err.
Qed.

(** C1: the result of a probe is [Healthy] exactly when the request was
    built, the GET returned a response, and the status code of that
    response is below 400; a response with a code of 400 or more gives
    [Unhealthy] with [StatusCode] equal to that code. *)
Theorem check_healthy_iff client ctx target w :
  let r := fst (check client ctx target w) in
  (Result.Status r = StatusHealthy ↔
     ∃ req resp, new_request ctx target = Ok req
                 ∧ roundtrip w client req = Ok resp
                 ∧ http.StatusCode resp < 400)
  ∧ (∀ req resp, new_request ctx target = Ok req →
                 roundtrip w client req = Ok resp →
                 400 ≤ http.StatusCode resp →
                 Result.Status r = StatusUnhealthy
                 ∧ Result.StatusCode r = http.StatusCode resp).
Proof.
  cbn zeta. split; [split|].
  - destruct (check_paths client ctx target w)
      as [[err E]|[(req & err & E1 & E2)|(req & resp & E1 & E2)]].
    + rewrite (check_bad_request _ _ _ _ _ E). discriminate.
    + rewrite (check_request_failed _ _ _ _ _ _ E1 E2). discriminate.
    + rewrite (check_response _ _ _ _ _ _ E1 E2). cbn.
      destruct (Z.leb_spec 400 (http.StatusCode resp)); [discriminate|].
      eauto.
  - intros (req & resp & E1 & E2 & Hlt).
    rewrite (check_response _ _ _ _ _ _ E1 E2). cbn.
    destruct (Z.leb_spec 400 (http.StatusCode resp)); [lia|done].
  - intros req resp E1 E2 Hge.
    rewrite (check_response _ _ _ _ _ _ E1 E2). cbn.
    destruct (Z.leb_spec 400 (http.StatusCode resp)); [done|lia].
Qed.

(** C2: [check] is total. For every client (hence timeout), context,
    target and world it returns a [Result] and a world, and both kinds of
    failure are encoded in that result: a request that cannot be built
    gives [Unhealthy] with the error text ["bad request: <detail>"], a
    request that cannot be executed (DNS, connect, timeout, cancellation)
    gives [Unhealthy] with ["request failed: <detail>"]. *)
Theorem check_total client ctx target w :
  ∃ r w', check client ctx target w = (r, w')
    ∧ (∀ err, new_request ctx target = Failed err →
              Result.Status r = StatusUnhealthy
              ∧ Result.Error r = "bad request: " +:+ err)
    ∧ (∀ req err, new_request ctx target = Ok req →
                  roundtrip w client req = Failed err →
                  Result.Status r = StatusUnhealthy
                  ∧ Result.Error r = "request failed: " +:+ err).
Proof.
  exists (fst (check client ctx target w)), (snd (check client ctx target w)).
  split; [by destruct (check client ctx target w)|]. split.
  - intros err E. by rewrite (check_bad_request _ _ _ _ _ E).
  - intros req err E1 E2. by rewrite (check_request_failed _ _ _ _ _ _ E1 E2).
Qed.

(** C3: the [Error] of a result is non-empty exactly when the request
    could not be built or could not be executed; on those two paths
    [StatusCode] is left at its zero value; a response with a code of 400
    or more sets [StatusCode] to that code and leaves [Error] empty. *)
Theorem check_error_iff client ctx target w :
  let r := fst (check client ctx target w) in
  (Result.Error r ≠ "" ↔
     (∃ err, new_request ctx target = Failed err)
     ∨ (∃ req err, new_request ctx target = Ok req
                   ∧ roundtrip w client req = Failed err))
  ∧ (Result.Error r ≠ "" → Result.StatusCode r = 0)
  ∧ (∀ req resp, new_request ctx target = Ok req →
                 roundtrip w client req = Ok resp →
                 400 ≤ http.StatusCode resp →
                 Result.StatusCode r = http.StatusCode resp
                 ∧ Result.Error r = "").
Proof.
  cbn zeta.
  destruct (check_paths client ctx target w)
    as [[err E]|[(req & err & E1 & E2)|(req & resp & E1 & E2)]].
  - rewrite (check_bad_request _ _ _ _ _ E). cbn.
    split; [split; [eauto|done]|]. split; [done|]. congruence.
  - rewrite (check_request_failed _ _ _ _ _ _ E1 E2). cbn.
    split; [split; [eauto 10|done]|]. split; [done|]. congruence.
  - rewrite (check_response _ _ _ _ _ _ E1 E2). cbn.
    split; [split; [done|]|].
    + intros [[err E]|(req' & err & E1' & E2')]; congruence.
    + split; [done|]. intros req' resp' E1' E2' _.
      split; [congruence|done].
Qed.

(** C9: on every path the result echoes its input, [Target] being the
    target's name and [URL] the target's URL, and [CheckedAt] is set: it
    is the last of the three clock readings of the call. *)
Theorem check_echoes_target client ctx target w :
  let r := fst (check client ctx target w) in
  Result.Target r = config.Name target
  ∧ Result.URL r = config.URL target
  ∧ Result.CheckedAt r = wall w (S (S (ticks w)))
  ∧ ticks (snd (check client ctx target w)) = S (S (S (ticks w))).
Proof.
  cbn zeta. rewrite check_world. cbn.
  destruct (check_paths client ctx target w)
    as [[err E]|[(req & err & E1 & E2)|(req & resp & E1 & E2)]].
  - by rewrite (check_bad_request _ _ _ _ _ E).
  - by rewrite (check_request_failed _ _ _ _ _ _ E1 E2).
  - by rewrite (check_response _ _ _ _ _ _ E1 E2).
Qed.
End ProbeFacts.

(** ** The Redis mirror *)

Section MirrorFacts.
Variable json_Unmarshal : string → outcome Result.

Local Abbreviation decode := (decode json_Unmarshal).
Local Abbreviation parse := (parse json_Unmarshal).
Local Abbreviation Results := (Results json_Unmarshal).

Lemma copy_map_id {V : Type} (m : gmap string V) : copy_map m = m.
Proof.
  unfold copy_map.
  apply (map_fold_weak_ind (fun out m => out = m)); [done|].
  by intros k v m' out _ ->.
Qed.

Lemma decode_omap vals : decode vals = omap parse vals.
Proof.
  unfold decode.
  apply (map_fold_weak_ind (fun out m => out = omap parse m)).
  - by rewrite omap_empty.
  - intros name data m out Hfresh ->. unfold parse at 2.
    destruct (json_Unmarshal data) as [r|err] eqn:E.
    + erewrite omap_insert_Some; [done|]. unfold parse. by rewrite E.
    + rewrite omap_insert_None; [|unfold parse; by rewrite E].
      rewrite delete_id; [done|]. by rewrite lookup_omap, Hfresh.
Qed.

Lemma Results_memory fault s : Results InMemory fault s = results s.
Proof. apply copy_map_id. Qed.

Lemma Results_redis_hit fault s vals :
  HGetAll Results_ctx fault redisKey (rdb s) = Ok vals → vals ≠ ∅ →
  Results RedisBacked fault s = omap parse vals.
Proof.
  intros E Hne. unfold Results. rewrite E.
  apply map_size_non_empty_iff in Hne.
  destruct (decide (0 < size vals)%nat); [apply decode_omap|lia].
Qed.

(** C4: on the Redis-backed checker, [Results] returns the in-memory
    snapshot, with every entry of [c.results], when [HGetAll] fails and
    when it returns an empty hash, never an error; it returns the
    content of the hash only when [HGetAll] succeeds with at least one
    field. *)
Theorem Results_falls_back fault s :
  (∀ err, HGetAll Results_ctx fault redisKey (rdb s) = Failed err →
          Results RedisBacked fault s = results s)
  ∧ (HGetAll Results_ctx fault redisKey (rdb s) = Ok ∅ →
     Results RedisBacked fault s = results s)
  ∧ (∀ vals, HGetAll Results_ctx fault redisKey (rdb s) = Ok vals →
             vals ≠ ∅ →
             Results RedisBacked fault s = omap parse vals)
  ∧ Results InMemory fault s = results s.
Proof.
  split; [|split; [|split]].
  - intros err E. unfold Results. rewrite E. apply copy_map_id.
  - intros E. unfold Results. rewrite E.
    rewrite map_size_empty. cbn. apply copy_map_id.
  - intros vals. apply Results_redis_hit.
  - apply Results_memory.
Qed.
End MirrorFacts.

(** C10: when [HGetAll] succeeds with a non-empty hash, the mapping
    [Results] returns holds exactly the fields of the hash that unmarshal,
    each with its decoded value; fields that do not unmarshal are left out,
    and no key is compared with the configured targets. So the mapping can
    be smaller than the hash, and can hold a name that is no target of the
    checker. *)
Theorem Results_redis_unfiltered :
  (∀ json_Unmarshal fault s vals,
     HGetAll Results_ctx fault redisKey (rdb s) = Ok vals → vals ≠ ∅ →
     ∀ name r,
       Results json_Unmarshal RedisBacked fault s !! name = Some r ↔
       ∃ data, vals !! name = Some data ∧ json_Unmarshal data = Ok r)
  ∧ (∃ json_Unmarshal s vals,
       HGetAll Results_ctx None redisKey (rdb s) = Ok vals
       ∧ (size (Results json_Unmarshal RedisBacked None s) < size vals)%nat)
  ∧ (∃ json_Unmarshal (c : Checker) s name,
       name ∈ dom (Results json_Unmarshal RedisBacked None s)
       ∧ name ∉ map config.Name (targets c)).
Proof.
  split; [|split].
  - intros ju fault s vals E Hne name r.
    rewrite (Results_redis_hit ju fault s vals E Hne), lookup_omap.
    unfold parse. destruct (vals !! name) as [data|]; cbn.
    + destruct (ju data) as [r'|err] eqn:E'; split.
      * intros [= ->]. eauto.
      * intros (data' & [= <-] & E''). congruence.
      * done.
      * intros (data' & [= <-] & E''). congruence.
    + split; [done|]. by intros (? & ? & ?).
  - exists Demo.json_Unmarshal, (init Demo.stale_db),
      {[ "ghost" := "ghost"; "ok" := "garbage" ]}.
    split; [done|]. vm_compute. lia.
  - exists Demo.json_Unmarshal, Demo.checker, (init Demo.stale_db), "ghost".
    split.
    + apply elem_of_dom.
      exists (Result.mk "ghost" "" StatusHealthy 200 0 "" 0).
      vm_compute. reflexivity.
    + cbn. rewrite !elem_of_cons, elem_of_nil.
      intros [H|[H|[H|[]]]]; discriminate H.
Qed.

(** ** The scheduler *)

Section SchedulerFacts.
Variable Request : Type.
Variable NewRequestWithContext : Ctx → string → string → outcome Request.
Variable json_Marshal : Result → outcome string.
Variable rev : Revision.
Variable c : Checker.
Variable ctx : Ctx.

Local Abbreviation check :=
  (check Request NewRequestWithContext (client c) ctx).
Local Abbreviation storeResult := (storeResult json_Marshal).
Local Abbreviation go_func :=
  (go_func Request NewRequestWithContext json_Marshal rev c ctx).
Local Abbreviation Run := (Run Request c).
Local Abbreviation checkAll := (checkAll Request).
Local Abbreviation env_step := (env_step Request).
Local Abbreviation step :=
  (step Request NewRequestWithContext json_Marshal rev c ctx).
Local Abbreviation exec :=
  (exec Request NewRequestWithContext json_Marshal rev c ctx).
Local Abbreviation reachable :=
  (reachable Request NewRequestWithContext json_Marshal rev c ctx).
Local Abbreviation go_trans :=
  (go_trans Request NewRequestWithContext c ctx).
Local Abbreviation Inv := (Inv Request NewRequestWithContext c ctx).
Local Abbreviation invariant :=
  (invariant Request NewRequestWithContext c ctx).

(** *** Lists of goroutines *)

Lemma locate_running (old cur : list Goroutine) i g :
  Forall (fun g => exited g = true) old →
  (old ++ cur) !! i = Some g → exited g = false →
  ∃ j, i = (length old + j)%nat ∧ cur !! j = Some g.
Proof.
  intros Hold Hi Hrun. apply lookup_app_Some in Hi as [Hi|[Hle Hi]].
  - rewrite Forall_lookup in Hold. specialize (Hold _ _ Hi). congruence.
  - exists (i - length old)%nat. split; [|done].
    lia.
Qed.

Lemma fmap_insert_same {A B} (f : A → B) (l : list A) j x y :
  l !! j = Some x → f y = f x → f <$> <[j := y]> l = f <$> l.
Proof.
  intros Hj Hf. rewrite list_fmap_insert, Hf.
  apply list_insert_id. by rewrite list_lookup_fmap, Hj.
Qed.

Lemma sum_list_insert_lt {A} (f : A → nat) (l : list A) j x y :
  l !! j = Some x → (f y < f x)%nat →
  (sum_list_with f (<[j := y]> l) < sum_list_with f l)%nat.
Proof.
  revert j. induction l as [|a l IH]; intros [|j] Hj Hlt; try done.
  - injection Hj as ->. cbn. by apply Nat.add_lt_mono_r.
  - cbn. apply Nat.add_lt_mono_l. by apply IH.
Qed.

Lemma in_flight_false s :
  Forall (fun g => exited g = true) (pool s) → in_flight s = false.
Proof.
  unfold in_flight. induction 1 as [|g gs Hg _ IH]; [done|].
  cbn. by rewrite Hg, IH.
Qed.

(** *** What one transition changes *)

Lemma storeResult_frame fault ctx0 name r s :
  results (storeResult fault ctx0 name r s) = results s
  ∧ pool (storeResult fault ctx0 name r s) = pool s
  ∧ pc (storeResult fault ctx0 name r s) = pc s
  ∧ cycle (storeResult fault ctx0 name r s) = cycle s
  ∧ completed (storeResult fault ctx0 name r s) = completed s
  ∧ ticker (storeResult fault ctx0 name r s) = ticker s
  ∧ done (storeResult fault ctx0 name r s) = done s
  ∧ metrics (storeResult fault ctx0 name r s) = metrics s.
Proof.
  unfold storeResult.
  destruct (json_Marshal r); [|done]. by destruct fault.
Qed.

Lemma go_func_spec l s s' :
  go_func l s = Some s' →
  ∃ i g p, pool s !! i = Some g
    ∧ pool s' = <[i := mkGoroutine (g_cycle g) (g_target g) p]> (pool s)
    ∧ pc s' = pc s ∧ cycle s' = cycle s ∧ completed s' = completed s
    ∧ ticker s' = ticker s ∧ done s' = done s
    ∧ go_trans (g_target g) (g_pc g) p (results s) (results s').
Proof.
  intros H.
  destruct l as [| | | | | |i w|i|i fault|i|i|i|i| |]; try discriminate H;
    cbn in H; destruct (pool s !! i) as [g|] eqn:Hi; try discriminate H;
    cbn in H; destruct (g_pc g) as [|r|r|r|r|r|r|r] eqn:Hpc; try discriminate H;
    injection H as <-; exists i, g; eexists; (split; [exact Hi|]);
    rewrite Hpc.
  - repeat split; constructor.
  - repeat split. constructor. destruct rev; auto.
  - destruct (storeResult_frame fault ctx (config.Name (g_target g)) r s)
      as (Hr & Hp & Hpc' & Hc & Hco & Ht & Hd & _).
    cbn. rewrite Hr, Hp, Hpc', Hc, Hco, Ht, Hd.
    repeat split. constructor.
  - repeat split; constructor.
  - repeat split; constructor.
  - repeat split; constructor.
  - repeat split; constructor.
Qed.

Lemma go_trans_running t p p' m m' :
  go_trans t p p' m m' → ∀ r, p ≠ Exited r.
Proof. by destruct 1. Qed.

Lemma go_trans_todo t p p' m m' :
  go_trans t p p' m m' → (todo p' < todo p)%nat.
Proof. destruct 1 as [| ? ? ? [-> | ->] | | | | |]; cbn; lia. Qed.

Lemma go_trans_produced t p p' m m' r :
  go_trans t p p' m m' → produced p' = Some r →
  produced p = Some r ∨ ∃ w, r = fst (check t w).
Proof.
  destruct 1 as [| ? ? ? [-> | ->] | | | | |]; cbn; intros [= <-]; eauto.
Qed.

Lemma go_trans_stored t p p' m m' r :
  go_trans t p p' m m' → stored p' = Some r →
  (stored p = Some r ∧ m' = m)
  ∨ (stored p = None ∧ m' = <[config.Name t := r]> m).
Proof.
  destruct 1 as [| ? ? ? [-> | ->] | | | | |]; cbn; intros [= <-]; eauto.
Qed.

Lemma go_trans_results t p p' m m' :
  go_trans t p p' m m' →
  m' = m ∨ ∃ r, stored p' = Some r ∧ m' = <[config.Name t := r]> m.
Proof. destruct 1 as [| ? ? ? [-> | ->] | | | | |]; cbn; eauto. Qed.

Lemma go_trans_mono t p p' (m m' : gmap string Result) k :
  go_trans t p p' m m' → is_Some (m !! k) → is_Some (m' !! k).
Proof.
  intros Htr Hk.
  destruct (go_trans_results _ _ _ _ _ Htr) as [->|(r & _ & ->)]; [done|].
  apply lookup_insert_is_Some'. by right.
Qed.

(** *** The invariant is preserved *)

(** A goroutine can only move while [Run] is inside [checkAll], and it
    belongs to the latest cycle. *)
Lemma go_func_Inv l s s' old cur :
  Inv s old cur → go_func l s = Some s' →
  (∃ rest, pc s = InCheckAll rest) ∧ ∃ cur', Inv s' old cur'.
Proof.
  intros [Ipool Iold Icur Ipc Iprod Isub Istored Ifull Ilatest] H.
  destruct (go_func_spec _ _ _ H)
    as (i & g & p & Hi & Hpool & Hpc & Hcy & Hco & _ & _ & Htr).
  assert (Hrun : exited g = false).
  { unfold exited. destruct (g_pc g) as [| | | | | | |r] eqn:E; try done.
    by destruct (go_trans_running _ _ _ _ _ Htr r). }
  assert (Hi' := Hi). rewrite Ipool in Hi'.
  destruct (locate_running old cur i g) as (j & -> & Hj); [|done|done|].
  { eapply Forall_impl; [exact Iold|]. by intros ? []. }
  assert (∃ rest, pc s = InCheckAll rest
                  ∧ (g_target <$> cur) ++ rest = targets c
                  ∧ cycle s = S (completed s)) as (rest & Epc & Htg & Hcyc).
  { destruct (pc s) as [|rest| | |] eqn:E.
    - destruct Ipc as (_ & _ & Hnil & _). by rewrite Hnil in Hi.
    - destruct Ipc; eauto.
    - destruct Ipc as (_ & _ & _ & Hex). rewrite Forall_lookup in Hex.
      specialize (Hex _ _ Hj). cbn in Hex. congruence.
    - destruct Ipc as (_ & _ & _ & Hex & _). rewrite Forall_lookup in Hex.
      specialize (Hex _ _ Hj). cbn in Hex. congruence.
    - destruct Ipc as (_ & _ & _ & Hex). rewrite Forall_lookup in Hex.
      specialize (Hex _ _ Hj). cbn in Hex. congruence. }
  assert (Hin : g_target g ∈ targets c).
  { rewrite <- Htg. apply elem_of_app. left. apply list_elem_of_fmap.
    exists g. split; [done|]. by eapply list_elem_of_lookup_2. }
  split; [eauto|].
  exists (<[j := mkGoroutine (g_cycle g) (g_target g) p]> cur).
  constructor.
  - rewrite Hpool, Ipool. apply insert_app_r.
  - by rewrite Hcy.
  - rewrite Hcy. apply Forall_insert; [done|]. cbn.
    rewrite Forall_lookup in Icur. eauto.
  - rewrite Hpc, Epc, Hco, Hcy.
    by rewrite (fmap_insert_same g_target cur j g).
  - rewrite Hpool. apply Forall_insert; [done|]. cbn. intros r Hr.
    destruct (go_trans_produced _ _ _ _ _ _ Htr Hr) as [Hp|Hw]; [|done].
    rewrite Forall_lookup in Iprod. by eapply Iprod.
  - intros k Hk.
    destruct (go_trans_results _ _ _ _ _ Htr) as [E|(r & _ & E)];
      rewrite E in Hk; [by apply Isub|].
    apply lookup_insert_is_Some' in Hk as [<-|Hk]; [|by apply Isub].
    apply list_elem_of_fmap. by exists (g_target g).
  - rewrite Hpool. apply Forall_insert.
    + eapply Forall_impl; [exact Istored|]. cbn. intros g0 Hg0 Hs.
      eapply go_trans_mono; eauto.
    + cbn. intros [r Hr].
      destruct (go_trans_stored _ _ _ _ _ _ Htr Hr) as [[Hs ->]|[_ ->]].
      * rewrite Forall_lookup in Istored. eapply Istored; [done|]. eauto.
      * rewrite lookup_insert_eq. eauto.
  - rewrite Hco. intros Hc t Ht. eapply go_trans_mono; eauto.
  - intros Hnd. specialize (Ilatest Hnd). rewrite Forall_lookup in Ilatest.
    apply Forall_lookup. intros j0 g0 Hj0 r Hr.
    destruct (decide (j0 = j)) as [->|Hne].
    + rewrite list_lookup_insert_eq in Hj0 by (by eapply lookup_lt_Some).
      injection Hj0 as <-. cbn in *.
      destruct (go_trans_stored _ _ _ _ _ _ Htr Hr) as [[Hs ->]|[_ ->]].
      * by eapply Ilatest.
      * by rewrite lookup_insert_eq.
    + rewrite list_lookup_insert_ne in Hj0 by done.
      specialize (Ilatest _ _ Hj0 _ Hr).
      destruct (go_trans_results _ _ _ _ _ Htr) as [->|(r' & _ & ->)];
        [done|].
      rewrite lookup_insert_ne; [done|]. intros Heq. apply Hne.
      rewrite <- Htg, fmap_app in Hnd. apply NoDup_app in Hnd as [Hnd _].
      apply (NoDup_lookup _ j0 j (config.Name (g_target g0)) Hnd).
      * by rewrite !list_lookup_fmap, Hj0.
      * rewrite !list_lookup_fmap, Hj. cbn. by rewrite Heq.
Qed.

Lemma exited_stored g : exited g = true → is_Some (stored (g_pc g)).
Proof. unfold exited. destruct (g_pc g); naive_solver. Qed.

Lemma wg_zero_exited s old cur :
  pool s = old ++ cur → Forall (fun g => g_cycle g = cycle s) cur →
  wg_zero s = true → Forall (fun g => exited g = true) cur.
Proof.
  intros Hpool Hcur Hwg. unfold wg_zero in Hwg.
  rewrite forallb_forall in Hwg. rewrite Forall_forall in Hcur.
  apply Forall_forall. intros g Hg.
  specialize (Hwg g). rewrite Hpool in Hwg.
  rewrite (Hcur g Hg), Nat.eqb_refl in Hwg. apply Hwg.
  apply list_elem_of_In, elem_of_app. by right.
Qed.

Lemma Run_Inv l s s' old cur :
  Inv s old cur → Run l s = Some s' → invariant s'.
Proof.
  intros [Ipool Iold Icur Ipc Iprod Isub Istored Ifull Ilatest] H.
  unfold Run in H.
  destruct l; try discriminate H;
    destruct (pc s) as [|rest| | |] eqn:Epc; try discriminate H.
  - (* RunStart *)
    injection H as <-. destruct Ipc as (Hcy & Hco & Hnil & Hres).
    exists [], []. constructor; cbn; rewrite ?Hnil, ?Hres; try by constructor.
    + by rewrite Hcy, Hco.
    + intros k [x Hx]. by rewrite lookup_empty in Hx.
    + lia.
  - (* NewTicker *)
    destruct (ticker s); try discriminate H.
    exists old, cur.
    destruct (decide (0 < interval c)); injection H as <-;
      constructor; cbn; rewrite ?Epc; done.
  - (* SelectDone *)
    destruct (ticker s); try discriminate H.
    all: destruct (done s) eqn:Hd; [|discriminate H]; injection H as <-.
    all: exists old, cur; constructor; cbn; try done.
    all: destruct Ipc as (? & ? & ? & ?); by repeat split.
  - (* SelectTick *)
    destruct (ticker s) as [|[]|]; try discriminate H. injection H as <-.
    destruct Ipc as (Htg & Hcyc & H1 & Hex).
    exists (old ++ cur), []. constructor; cbn; try done.
    + by rewrite Ipool, app_nil_r.
    + apply Forall_app. split.
      * eapply Forall_impl; [exact Iold|]. cbn. intros g [? ?].
        split; [done|lia].
      * rewrite Forall_forall in Icur, Hex. apply Forall_forall.
        intros g Hg. split; [auto|]. rewrite (Icur g Hg). lia.
    + split; [done|]. by rewrite Hcyc.
Qed.

Lemma checkAll_Inv l s s' old cur :
  Inv s old cur → checkAll l s = Some s' → invariant s'.
Proof.
  intros [Ipool Iold Icur Ipc Iprod Isub Istored Ifull Ilatest] H.
  unfold checkAll in H.
  destruct l; try discriminate H;
    destruct (pc s) as [|rest| | |] eqn:Epc; try discriminate H.
  - (* Spawn *)
    destruct rest as [|t rest]; [discriminate H|].
    injection H as <-. destruct Ipc as [Htg Hcyc].
    exists old, (cur ++ [mkGoroutine (cycle s) t AtCheck]).
    constructor; cbn; try done.
    + by rewrite Ipool, app_assoc.
    + apply Forall_app. split; [done|]. by constructor.
    + rewrite fmap_app, <- app_assoc. by split.
    + apply Forall_app. split; [done|]. by constructor.
    + apply Forall_app. split; [done|].
      constructor; [|constructor]. cbn. by intros [r Hr].
    + intros Hnd. apply Forall_app. split; [auto|]. by constructor.
  - (* WaitReturn *)
    destruct rest as [|t rest]; [|discriminate H].
    destruct (wg_zero s) eqn:Hwg; [|discriminate H].
    destruct Ipc as [Htg Hcyc]. rewrite app_nil_r in Htg.
    pose proof (wg_zero_exited s old cur Ipool Icur Hwg) as Hex.
    exists old, cur. injection H as <-.
    constructor; cbn; try done.
    + repeat split; [done|done|lia|done].
    + intros _ t Ht. rewrite <- Htg in Ht.
      apply list_elem_of_fmap in Ht as (g & -> & Hg).
      rewrite Forall_forall in Istored, Hex. apply Istored.
      * rewrite Ipool. apply elem_of_app. by right.
      * apply exited_stored. auto.
Qed.

Lemma env_step_Inv l s s' old cur :
  Inv s old cur → env_step l s = Some s' → Inv s' old cur.
Proof.
  intros [Ipool Iold Icur Ipc Iprod Isub Istored Ifull Ilatest] H.
  destruct l; try discriminate H; cbn in H.
  - destruct (ticker s); try discriminate H. injection H as <-.
    by constructor.
  - injection H as <-. constructor; cbn; try done.
    destruct (pc s); try done. destruct Ipc as (? & ? & ? & ? & ?).
    by repeat split.
Qed.

Lemma step_invariant l s s' :
  invariant s → step l s = Some s' → invariant s'.
Proof.
  intros (old & cur & HI) H. destruct l; unfold step in H.
  1,4,5,6: by eapply Run_Inv.
  1-2: by eapply checkAll_Inv.
  1-7: destruct (go_func_Inv _ _ _ _ _ HI H) as (_ & cur' & HI');
       by exists old, cur'.
  1-2: exists old, cur; by eapply env_step_Inv.
Qed.

Lemma init_invariant db : invariant (init db).
Proof.
  exists [], []. constructor; cbn; try done.
  - intros k [x Hx]. by rewrite lookup_empty in Hx.
  - lia.
Qed.

Lemma exec_invariant ls s s' :
  invariant s → exec ls s = Some s' → invariant s'.
Proof.
  revert s. induction ls as [|l ls IH]; intros s HI H; cbn in H.
  - by injection H as <-.
  - destruct (step l s) as [s1|] eqn:E; [|discriminate H]. cbn in H.
    eapply IH; [|exact H]. by eapply step_invariant.
Qed.

Lemma reachable_invariant db s : reachable db s → invariant s.
Proof. intros [ls H]. eapply exec_invariant; [apply init_invariant|done]. Qed.

Lemma exec_app ls1 ls2 s :
  exec (ls1 ++ ls2) s = exec ls1 s ≫= exec ls2.
Proof.
  revert s. induction ls1 as [|l ls1 IH]; intros s; [done|]. cbn.
  destruct (step l s); [apply IH|done].
Qed.

Lemma reachable_exec db ls s s' :
  reachable db s → exec ls s = Some s' → reachable db s'.
Proof.
  intros [ls0 H0] H. exists (ls0 ++ ls). by rewrite exec_app, H0.
Qed.

(** *** Inside [checkAll]: progress and termination *)

Lemma forallb_false_lookup {A} (f : A → bool) (l : list A) :
  forallb f l = false → ∃ i x, l !! i = Some x ∧ f x = false.
Proof.
  induction l as [|a l IH]; [done|]. cbn. intros H.
  destruct (f a) eqn:E.
  - destruct (IH H) as (i & x & Hi & Hx). by exists (S i), x.
  - by exists O, a.
Qed.

(** Every action of [Run] or of a goroutine taken inside [checkAll] keeps
    the cycle and the cancellation flag, and either uses up fuel or is the
    return of [checkAll]. *)
Lemma step_checkAll l s s' rest :
  pc s = InCheckAll rest → is_env l = false → step l s = Some s' →
  cycle s' = cycle s ∧ done s' = done s ∧ ticker s' = ticker s
  ∧ ((∃ rest', pc s' = InCheckAll rest' ∧ completed s' = completed s
               ∧ (fuel s' < fuel s)%nat)
     ∨ (pc s' = AtSelect ∧ completed s' = S (completed s))).
Proof.
  intros Epc Henv H. destruct l; try discriminate Henv;
    unfold step in H.
  7-13: destruct (go_func_spec _ _ _ H)
      as (i' & g & p & Hi & Hpool & Hpc & Hcy & Hco & Htk & Hd & Htr).
  7-13: repeat split; [done|done|done|]; left; exists rest.
  7-13: rewrite Hpc; repeat split; [done|done|]; unfold fuel.
  7-13: rewrite Hpc, Hpool; apply Nat.add_lt_mono_l.
  7-13: eapply sum_list_insert_lt; [done|]; cbn.
  7-13: by eapply go_trans_todo.
  1-6: unfold Run, checkAll in H; rewrite Epc in H; try discriminate H.
  - destruct rest as [|t rest]; [discriminate H|]. injection H as <-.
    cbn. repeat split. left. exists rest. repeat split.
    unfold fuel. cbn. rewrite Epc, sum_list_with_app. cbn. lia.
  - destruct rest as [|t rest]; [|discriminate H].
    destruct (wg_zero s); [|discriminate H]. injection H as <-.
    cbn. repeat split. by right.
Qed.

(** Inside [checkAll] some action of the program is always possible: the
    loop spawns, a goroutine that has not exited moves, or [wg.Wait()]
    returns. *)
Lemma checkAll_progress s rest :
  pc s = InCheckAll rest →
  ∃ l s', is_env l = false ∧ step l s = Some s'.
Proof.
  intros Epc. destruct rest as [|t rest].
  - destruct (wg_zero s) eqn:Hwg.
    + exists WaitReturn. eexists. split; [done|].
      unfold step, Run, checkAll. by rewrite Epc, Hwg.
    + unfold wg_zero in Hwg.
      apply forallb_false_lookup in Hwg as (i & g & Hi & Hg).
      apply orb_false_iff in Hg as [_ Hex]. unfold exited in Hex.
      destruct (g_pc g) as [|r|r|r|r|r|r|r] eqn:Eg; [..|discriminate].
      * exists (GoCheck i dead_net). eexists. split; [done|].
        unfold step, go_func. rewrite Hi. cbn.
        by rewrite Eg.
      * exists (GoStore i). eexists. split; [done|].
        unfold step, go_func. rewrite Hi. cbn.
        by rewrite Eg.
      * exists (GoMirror i None). eexists. split; [done|].
        unfold step, go_func. rewrite Hi. cbn.
        by rewrite Eg.
      * exists (GoObserve i). eexists. split; [done|].
        unfold step, go_func. rewrite Hi. cbn.
        by rewrite Eg.
      * exists (GoInc i). eexists. split; [done|].
        unfold step, go_func. rewrite Hi. cbn.
        by rewrite Eg.
      * exists (GoSet i). eexists. split; [done|].
        unfold step, go_func. rewrite Hi. cbn.
        by rewrite Eg.
      * exists (GoLog i). eexists. split; [done|].
        unfold step, go_func. rewrite Hi. cbn.
        by rewrite Eg.
  - exists Spawn. eexists. split; [done|].
    unfold step, Run, checkAll. by rewrite Epc.
Qed.

(** A call of [checkAll] can always be brought to its return by actions
    of the program alone, whatever the environment has done so far. *)
Lemma checkAll_returns n s :
  (fuel s ≤ n)%nat → (∃ rest, pc s = InCheckAll rest) →
  ∃ ls s', Forall (fun l => is_env l = false) ls
    ∧ exec ls s = Some s' ∧ pc s' = AtSelect ∧ cycle s' = cycle s
    ∧ done s' = done s ∧ completed s' = S (completed s)
    ∧ ticker s' = ticker s.
Proof.
  revert s. induction n as [|n IH]; intros s Hfuel [rest Epc].
  { unfold fuel in Hfuel. rewrite Epc in Hfuel. lia. }
  destruct (checkAll_progress s rest Epc) as (l & s1 & Henv & H1).
  destruct (step_checkAll l s s1 rest Epc Henv H1)
    as (Hcy & Hd & Htk & [(rest' & Epc' & Hco & Hlt)|[Epc' Hco]]).
  - destruct (IH s1) as (ls & s' & Hls & Hex & ? & ? & ? & ? & Htk');
      [lia|eauto|].
    exists (l :: ls), s'. split; [by constructor|]. cbn. rewrite H1. cbn.
    repeat split; congruence.
  - exists [l], s1. split; [by repeat constructor|]. cbn. rewrite H1.
    by repeat split.
Qed.

(** *** Between cycles *)

(** A call of [checkAll] is made only when no goroutine is running. *)
Lemma begin_cycle_quiet db s l s' :
  reachable db s → step l s = Some s' → begins_cycle l = true →
  in_flight s = false ∧ completed s = cycle s ∧ cycle s' = S (cycle s)
  ∧ pc s' = InCheckAll (targets c) ∧ pool s' = pool s.
Proof.
  intros Hs H Hl. apply reachable_invariant in Hs as (old & cur & HI).
  destruct HI as [Ipool Iold Icur Ipc _ _ _ _ _].
  destruct l; try discriminate Hl;
    unfold step, Run, checkAll in H;
    destruct (pc s); try discriminate H.
  - injection H as <-. destruct Ipc as (Hcy & Hco & Hnil & _). cbn.
    repeat split; [|congruence]. unfold in_flight. by rewrite Hnil.
  - destruct (ticker s) as [|[]|]; try discriminate H. injection H as <-.
    destruct Ipc as (_ & Hcy & _ & Hex). cbn. repeat split; [|done].
    apply in_flight_false. rewrite Ipool. apply Forall_app. split; [|done].
    eapply Forall_impl; [exact Iold|]. by intros ? [].
Qed.

(** At the [select] and after [Run] has returned, the latest cycle is
    complete: each target has a goroutine of that cycle that has exited,
    and the result it got from [check] is in [c.results]. *)
Lemma quiescent_settled s :
  invariant s → quiescent s = true →
  in_flight s = false ∧ cycle s = completed s ∧ (1 ≤ completed s)%nat
  ∧ ∀ t, t ∈ targets c →
      is_Some (results s !! config.Name t)
      ∧ ∃ g r, g ∈ pool s ∧ g_cycle g = cycle s ∧ g_target g = t
          ∧ g_pc g = Exited r ∧ (∃ w, r = fst (check t w))
          ∧ (NoDup (config.Name <$> targets c) →
             results s !! config.Name t = Some r).
Proof.
  intros (old & cur & [Ipool Iold Icur Ipc Iprod _ _ Ifull Ilatest]) Hq.
  assert (g_target <$> cur = targets c ∧ cycle s = completed s
          ∧ (1 ≤ completed s)%nat ∧ Forall (fun g => exited g = true) cur)
    as (Htg & Hcy & H1 & Hex).
  { unfold quiescent in Hq. destruct (pc s); try discriminate Hq.
    - done.
    - destruct Ipc as (? & ? & ? & ? & _). done. }
  repeat split; try done.
  - apply in_flight_false. rewrite Ipool. apply Forall_app. split; [|done].
    eapply Forall_impl; [exact Iold|]. by intros ? [].
  - by apply Ifull.
  - rewrite <- Htg in H. apply list_elem_of_fmap in H as (g & -> & Hg).
    rewrite Forall_forall in Icur, Hex, Iprod.
    assert (Hgp : g ∈ pool s) by (rewrite Ipool, elem_of_app; by right).
    pose proof (Hex g Hg) as He. unfold exited in He.
    destruct (g_pc g) as [| | | | | | |r] eqn:Eg; try discriminate He.
    exists g, r. repeat split; auto.
    + apply (Iprod g Hgp). by rewrite Eg.
    + intros Hnd. specialize (Ilatest Hnd). rewrite Forall_forall in Ilatest.
      apply (Ilatest g Hg). by rewrite Eg.
Qed.


(** *** What the scheduler guarantees *)

Variable json_Unmarshal : string → outcome Result.
Local Abbreviation Results := (Results json_Unmarshal).

(** C5 (amended): cycles never overlap. [Run] calls [checkAll] from its
    own loop and [checkAll] waits for all its goroutines, so a call of
    [checkAll] is made only when no goroutine is running and all earlier
    cycles are complete. A tick that fires while a cycle is running cannot
    be received then; it stays in the ticker's channel, and the next cycle
    begins after the running one has returned. *)
Theorem cycles_never_overlap db s :
  reachable db s →
  (∀ l s', step l s = Some s' → begins_cycle l = true →
           in_flight s = false ∧ completed s = cycle s
           ∧ cycle s' = S (cycle s))
  ∧ (∀ l, in_flight s = true → begins_cycle l = true → step l s = None)
  ∧ (∀ rest b, pc s = InCheckAll rest → ticker s = Ticking b →
       step SelectTick s = None
       ∧ ∃ s0, step Tick s = Some s0 ∧ pc s0 = pc s
           ∧ ticker s0 = Ticking true
           ∧ ∃ ls s1 s2,
               Forall (fun l => is_env l = false) ls
               ∧ exec ls s0 = Some s1 ∧ pc s1 = AtSelect
               ∧ cycle s1 = cycle s ∧ in_flight s1 = false
               ∧ step SelectTick s1 = Some s2 ∧ cycle s2 = S (cycle s)).
Proof.
  intros Hs. split; [|split].
  - intros l s' H Hl.
    by destruct (begin_cycle_quiet db s l s' Hs H Hl) as (? & ? & ? & _).
  - intros l Hfl Hl. destruct (step l s) as [s'|] eqn:H; [|done].
    destruct (begin_cycle_quiet db s l s' Hs H Hl) as (Hq & _). congruence.
  - intros rest b Epc Htk. split.
    { unfold step, Run, checkAll. by rewrite Epc. }
    exists (set_ticker (Ticking true) s). split.
    { unfold step, env_step. by rewrite Htk. }
    split; [done|]. split; [done|].
    destruct (checkAll_returns (fuel (set_ticker (Ticking true) s))
                (set_ticker (Ticking true) s))
      as (ls & s1 & Hls & Hex & Epc1 & Hcy1 & _ & _ & Htk1); [done|by eauto|].
    cbn in Htk1.
    assert (Hs1 : reachable db s1).
    { eapply reachable_exec; [|exact Hex]. eapply (reachable_exec _ [Tick]);
        [exact Hs|]. cbn. unfold env_step. by rewrite Htk. }
    destruct (quiescent_settled s1) as (Hq & _).
    { by eapply reachable_invariant. }
    { unfold quiescent. by rewrite Epc1. }
    exists ls, s1,
      (set_pc (InCheckAll (targets c))
         (set_cycle (S (cycle s1)) (set_ticker (Ticking false) s1))).
    repeat split; try done.
    + unfold step, Run, checkAll. by rewrite Epc1, Htk1.
    + cbn. by rewrite Hcy1.
Qed.

(** C7: on the Redis-backed checker, a goroutine that holds a result
    first installs it in [c.results] and then calls [storeResult], which
    returns whatever happens: a marshalling error and a Redis error each
    leave one log line and the hash as it was, and only a write that goes
    through changes the hash. In every case the in-memory entry is the new
    result, the goroutine goes on to its metrics, [Run] is where it was,
    and the cycle can still be brought to its return. *)
Theorem storeResult_best_effort s i g r fault :
  rev = RedisBacked → pool s !! i = Some g → g_pc g = AtStore r →
  let name := config.Name (g_target g) in
  ∃ s1 s2,
    step (GoStore i) s = Some s1 ∧ step (GoMirror i fault) s1 = Some s2
    ∧ results s1 = <[name := r]> (results s) ∧ results s2 = results s1
    ∧ pool s2
      = <[i := mkGoroutine (g_cycle g) (g_target g) (AtMetrics r)]> (pool s)
    ∧ pc s2 = pc s ∧ cycle s2 = cycle s
    ∧ match json_Marshal r, fault with
      | Failed err, _ =>
          logger s2 = logger s ++ [Error_failed_to_marshal name err]
          ∧ rdb s2 = rdb s
      | Ok _, Some err =>
          logger s2 = logger s ++ [Warn_failed_to_write_redis name err]
          ∧ rdb s2 = rdb s
      | Ok data, None =>
          logger s2 = logger s
          ∧ rdb s2 = <[redisKey := <[name := data]>
                                     (default ∅ (rdb s !! redisKey))]> (rdb s)
      end
    ∧ (∀ db, reachable db s →
         ∃ ls s3, exec ls s2 = Some s3 ∧ pc s3 = AtSelect
                  ∧ cycle s3 = cycle s).
Proof.
  intros Hrev Hi Hpc name.
  pose proof (lookup_lt_Some _ _ _ Hi) as Hlen.
  set (s1 := set_goroutine i g (AtMirror r)
               (set_results (<[name := r]> (results s)) s)).
  assert (H1 : step (GoStore i) s = Some s1).
  { unfold step, go_func. rewrite Hi. cbn.
    by rewrite Hpc, Hrev. }
  set (g1 := mkGoroutine (g_cycle g) (g_target g) (AtMirror r)).
  assert (Hi1 : pool s1 !! i = Some g1).
  { cbn. by rewrite list_lookup_insert_eq. }
  set (s2 := set_goroutine i g1 (AtMetrics r)
               (storeResult fault ctx name r s1)).
  assert (H2 : step (GoMirror i fault) s1 = Some s2).
  { unfold step, go_func. by rewrite Hi1. }
  destruct (storeResult_frame fault ctx name r s1)
    as (Hr & Hp & Hpc' & Hc & _).
  exists s1, s2. split; [done|]. split; [done|]. split; [done|].
  split; [exact Hr|]. split.
  { cbn. rewrite Hp. cbn. by rewrite list_insert_insert_eq. }
  split; [exact Hpc'|]. split; [exact Hc|]. split.
  - subst s2. cbn. unfold storeResult.
    destruct (json_Marshal r) as [data|err]; [|done].
    by destruct fault.
  - intros db Hs.
    assert (Hs2 : reachable db s2).
    { apply (reachable_exec db [GoStore i; GoMirror i fault] s); [done|].
      cbn -[step]. rewrite H1. cbn -[step].
      by rewrite H2. }
    destruct (reachable_invariant db s Hs) as (old & cur & HI).
    destruct (go_func_Inv (GoStore i) s s1 old cur HI) as [[rest Epc] _].
    { exact H1. }
    destruct (checkAll_returns (fuel s2) s2)
      as (ls & s3 & _ & Hex & Epc3 & Hcy3 & _); [done| |].
    { exists rest. by rewrite <- Epc. }
    exists ls, s3. repeat split; [done|done|]. by rewrite Hcy3.
Qed.

(** C8: with target names that are all different, once [N ≥ 1] cycles
    have completed the snapshot [Results] of the in-memory checker has
    exactly the names of the configured targets as keys; when no cycle is
    running, each name maps to the result that the goroutine of the N-th
    cycle for that target got from [check]. (Names need not be non-empty
    for this.) *)
Theorem snapshot_after_cycles db s N fault :
  rev = InMemory → NoDup (config.Name <$> targets c) → reachable db s →
  completed s = N → (1 ≤ N)%nat →
  dom (Results rev fault s)
  = (list_to_set (config.Name <$> targets c) : gset string)
  ∧ (quiescent s = true →
     ∀ t, t ∈ targets c →
       ∃ g r, g ∈ pool s ∧ g_cycle g = N ∧ g_target g = t
         ∧ g_pc g = Exited r ∧ (∃ w, r = fst (check t w))
         ∧ Results rev fault s !! config.Name t = Some r).
Proof.
  intros Hrev Hnd Hs <- HN. rewrite Hrev, Results_memory.
  pose proof (reachable_invariant db s Hs) as HI. split.
  - destruct HI as (old & cur & [_ _ _ _ _ Isub _ Ifull _]).
    apply set_eq. intros k. rewrite elem_of_dom, elem_of_list_to_set. split.
    + apply Isub.
    + intros Hk. apply list_elem_of_fmap in Hk as (t & -> & Ht).
      by apply Ifull.
  - intros Hq t Ht.
    destruct (quiescent_settled s HI Hq) as (_ & Hcy & _ & Htg).
    destruct (Htg t Ht) as (_ & g & r & ? & ? & ? & ? & ? & Hlatest).
    exists g, r. repeat split; try done; [congruence|by apply Hlatest].
Qed.
End SchedulerFacts.

(** C5, as first stated, fails: in no execution of any checker is a cycle
    begun while a goroutine of an earlier cycle is still running. *)
Lemma overlapping_cycles_impossible :
  ¬ ∃ (Request : Type) NewRequestWithContext json_Marshal rev c ctx db
      (s s' : State) (l : Label Request),
      reachable Request NewRequestWithContext json_Marshal rev c ctx db s
      ∧ in_flight s = true ∧ begins_cycle l = true
      ∧ step Request NewRequestWithContext json_Marshal rev c ctx l s
        = Some s'.
Proof.
  intros (Request & nr & jm & rev & c & ctx & db & s & s' & l
          & Hs & Hfl & Hl & H).
  destruct (begin_cycle_quiet Request nr jm rev c ctx db s l s' Hs H Hl)
    as (Hq & _).
  congruence.
Qed.

(** ** The properties on the test double *)

(** The scenario of three targets: after one cycle the store holds
    [ok] healthy with 200, [fail] unhealthy with 500, and [down] unhealthy
    with an error and no status code. *)
Example three_targets_first_cycle :
  let s := Demo.state_after InMemory Demo.first_cycle in
  Demo.run InMemory Demo.first_cycle = Some s
  ∧ quiescent s = true
  ∧ results s !! "ok"
    = Some (Result.mk "ok" "http://x/200" StatusHealthy 200 7 "" 1014)
  ∧ results s !! "fail"
    = Some (Result.mk "fail" "http://x/500" StatusUnhealthy 500 7 "" 1014)
  ∧ results s !! "down"
    = Some (Result.mk "down" "http://unreachable" StatusUnhealthy 0 7
              "request failed: dial tcp: no such host" 1014)
  ∧ size (results s) = 3%nat.
Proof. vm_compute. repeat split; reflexivity. Qed.

(** Go picks among the ready cases of a [select]: with a tick pending
    when the signal arrives, [Run] may still take the tick first. *)
Example tick_may_be_taken_before_done :
  let s := Demo.state_after InMemory (Demo.first_cycle ++ [Tick; Cancel]) in
  Demo.run InMemory (Demo.first_cycle ++ [Tick; Cancel]) = Some s
  ∧ is_Some (step string Demo.NewRequestWithContext Demo.json_Marshal
               InMemory Demo.checker Demo.ctx SelectTick s)
  ∧ is_Some (step string Demo.NewRequestWithContext Demo.json_Marshal
               InMemory Demo.checker Demo.ctx SelectDone s).
Proof. vm_compute. repeat split; eexists; reflexivity. Qed.

(** While the second cycle is running, a pending tick cannot start a
    third one. *)
Example second_cycle_holds_the_tick :
  let s := Demo.state_after InMemory Demo.second_cycle_running in
  Demo.run InMemory Demo.second_cycle_running = Some s
  ∧ in_flight s = true ∧ ticker s = Ticking true ∧ cycle s = 2%nat
  ∧ step string Demo.NewRequestWithContext Demo.json_Marshal InMemory
      Demo.checker Demo.ctx SelectTick s = None.
Proof. vm_compute. repeat split; reflexivity. Qed.

Lemma check_healthy_iff_witness :
  let r := fst (check string Demo.NewRequestWithContext
                  (client Demo.checker) Demo.ctx Demo.fail Demo.net) in
  Result.Status r = StatusUnhealthy ∧ Result.StatusCode r = 500.
Proof.
  apply (proj2 (check_healthy_iff string Demo.NewRequestWithContext
                  (client Demo.checker) Demo.ctx Demo.fail Demo.net)
           "http://x/500" (http.mkResponse 500)).
  - reflexivity.
  - reflexivity.
  - cbn. lia.
Defined.

Lemma check_total_witness :
  ∃ r, fst (check string Demo.NewRequestWithContext
              (client Demo.checker) Demo.ctx Demo.bad Demo.net) = r
       ∧ Result.Status r = StatusUnhealthy
       ∧ Result.Error r = "bad request: parse: missing protocol scheme".
Proof.
  destruct (check_total string Demo.NewRequestWithContext
              (client Demo.checker) Demo.ctx Demo.bad Demo.net)
    as (r & w' & E & Hbad & _).
  exists r. split; [by rewrite E|].
  apply (Hbad "parse: missing protocol scheme"). reflexivity.
Defined.

Lemma check_error_iff_witness :
  Result.StatusCode
    (fst (check string Demo.NewRequestWithContext
            (client Demo.checker) Demo.ctx Demo.down Demo.net)) = 0.
Proof.
  apply (check_error_iff string Demo.NewRequestWithContext
           (client Demo.checker) Demo.ctx Demo.down Demo.net).
  vm_compute. discriminate.
Defined.

Lemma Results_falls_back_witness :
  let s := set_rdb Demo.stale_db (Demo.state_after InMemory Demo.first_cycle) in
  Results Demo.json_Unmarshal RedisBacked (Some "i/o timeout") s = results s.
Proof.
  apply (Results_falls_back Demo.json_Unmarshal (Some "i/o timeout")
           (set_rdb Demo.stale_db
              (Demo.state_after InMemory Demo.first_cycle)))
    with (err := "i/o timeout").
  reflexivity.
Defined.

Lemma Results_redis_unfiltered_witness :
  Results Demo.json_Unmarshal RedisBacked None (init Demo.stale_db) !! "ok"
  = None.
Proof.
  destruct Results_redis_unfiltered as [H _].
  specialize (H Demo.json_Unmarshal None (init Demo.stale_db)
                {[ "ghost" := "ghost"; "ok" := "garbage" ]} eq_refl).
  destruct (Results Demo.json_Unmarshal RedisBacked None
              (init Demo.stale_db) !! "ok") as [r|] eqn:E; [|reflexivity].
  apply H in E as (data & Hdata & Hparse).
  - vm_compute in Hdata. injection Hdata as <-. discriminate Hparse.
  - intros Hempty. apply (f_equal size) in Hempty. vm_compute in Hempty.
    discriminate Hempty.
Defined.

Lemma cycles_never_overlap_witness :
  let s := Demo.state_after InMemory (Demo.first_cycle ++ [Tick]) in
  in_flight s = false ∧ completed s = cycle s.
Proof.
  intros s.
  destruct (cycles_never_overlap string Demo.NewRequestWithContext
              Demo.json_Marshal InMemory Demo.checker Demo.ctx ∅ s)
    as [H _].
  - exists (Demo.first_cycle ++ [Tick]). vm_compute. reflexivity.
  - destruct (H SelectTick
                (set_pc (InCheckAll (targets Demo.checker))
                   (set_cycle 2 (set_ticker (Ticking false) s))))
      as (Hq & Hc & _).
    + vm_compute. reflexivity.
    + reflexivity.
    + by split.
Defined.

Lemma storeResult_best_effort_witness :
  let s := Demo.state_after RedisBacked Demo.redis_first_result in
  ∃ s2, results s2 !! "ok"
        = Some (Result.mk "ok" "http://x/200" StatusHealthy 200 7 "" 1014)
        ∧ rdb s2 = rdb s
        ∧ logger s2
          = logger s ++ [Warn_failed_to_write_redis "ok" "i/o timeout"].
Proof.
  intros s.
  destruct (storeResult_best_effort string Demo.NewRequestWithContext
              Demo.json_Marshal RedisBacked Demo.checker Demo.ctx s O
              (mkGoroutine 1 Demo.ok
                 (AtStore (Result.mk "ok" "http://x/200" StatusHealthy 200 7
                             "" 1014)))
              (Result.mk "ok" "http://x/200" StatusHealthy 200 7 "" 1014)
              (Some "i/o timeout"))
    as (s1 & s2 & _ & _ & Hr1 & Hr2 & _ & _ & _ & Hlog & _).
  - reflexivity.
  - vm_compute. reflexivity.
  - reflexivity.
  - exists s2. rewrite Hr2, Hr1. cbn in Hlog. destruct Hlog as [Hl Hdb].
    split; [apply lookup_insert_eq|]. by split.
Defined.

Lemma snapshot_after_cycles_witness :
  dom (Results Demo.json_Unmarshal InMemory None
         (Demo.state_after InMemory Demo.first_cycle))
  = (list_to_set ["ok"; "fail"; "down"] : gset string).
Proof.
  destruct (snapshot_after_cycles string Demo.NewRequestWithContext
              Demo.json_Marshal InMemory Demo.checker Demo.ctx
              Demo.json_Unmarshal ∅
              (Demo.state_after InMemory Demo.first_cycle) 1%nat None)
    as [H _].
  - reflexivity.
  - apply (bool_decide_unpack _). vm_compute. exact I.
  - exists Demo.first_cycle. vm_compute. reflexivity.
  - vm_compute. reflexivity.
  - lia.
  - exact H.
Defined.

(** * Further properties *)

(** ** The probe's clock *)

Section ProbeTiming.
Variable Request : Type.
Variable NewRequestWithContext : Ctx → string → string → outcome Request.

Local Abbreviation check := (check Request NewRequestWithContext).

End ProbeTiming.

(** ** The scheduler, the store and the metrics *)

Section SchedulerMore.
Variable Request : Type.
Variable NewRequestWithContext : Ctx → string → string → outcome Request.
Variable json_Marshal : Result → outcome string.
Variable rev : Revision.
Variable c : Checker.
Variable ctx : Ctx.

Local Abbreviation check :=
  (check Request NewRequestWithContext (client c) ctx).
Local Abbreviation storeResult := (storeResult json_Marshal).
Local Abbreviation go_func :=
  (go_func Request NewRequestWithContext json_Marshal rev c ctx).
Local Abbreviation Run := (Run Request c).
Local Abbreviation checkAll := (checkAll Request).
Local Abbreviation env_step := (env_step Request).
Local Abbreviation step :=
  (step Request NewRequestWithContext json_Marshal rev c ctx).
Local Abbreviation exec :=
  (exec Request NewRequestWithContext json_Marshal rev c ctx).
Local Abbreviation reachable :=
  (reachable Request NewRequestWithContext json_Marshal rev c ctx).
Local Abbreviation Inv := (Inv Request NewRequestWithContext c ctx).
Local Abbreviation invariant :=
  (invariant Request NewRequestWithContext c ctx).

(** *** Transitions, inverted *)

(** A goroutine action, read backwards: which goroutine moved and what
    the state is afterwards. *)
Lemma go_func_inv l s s' :
  go_func l s = Some s' →
  ∃ i g, pool s !! i = Some g ∧
    match g_pc g with
    | AtCheck =>
        ∃ w, l = GoCheck i w
             ∧ s' = set_goroutine i g
                      (AtStore (fst (check (g_target g) w))) s
    | AtStore r =>
        l = GoStore i
        ∧ s' = set_goroutine i g
                 (match rev with
                  | InMemory => AtMetrics r
                  | RedisBacked => AtMirror r
                  end)
                 (set_results
                    (<[config.Name (g_target g) := r]> (results s)) s)
    | AtMirror r =>
        ∃ fault, l = GoMirror i fault
                 ∧ s' = set_goroutine i g (AtMetrics r)
                          (storeResult fault ctx
                             (config.Name (g_target g)) r s)
    | AtMetrics r =>
        l = GoObserve i
        ∧ s' = set_goroutine i g (AtInc r)
                 (set_metrics
                    (Observe (config.Name (g_target g)) r (metrics s)) s)
    | AtInc r =>
        l = GoInc i
        ∧ s' = set_goroutine i g (AtSet r)
                 (set_metrics
                    (Inc (config.Name (g_target g)) r (metrics s)) s)
    | AtSet r =>
        l = GoSet i
        ∧ s' = set_goroutine i g (AtLog r)
                 (set_metrics
                    (Set_up (config.Name (g_target g)) r (metrics s)) s)
    | AtLog r =>
        l = GoLog i
        ∧ s' = set_goroutine i g (Exited r)
                 (log (Info_check_complete (config.Name (g_target g))
                         (Result.Status r) (Result.Latency r)) s)
    | Exited _ => False
    end.
Proof.
  intros H.
  destruct l as [| | | | | |i w|i|i fault|i|i|i|i| |]; try discriminate H;
    cbn in H; destruct (pool s !! i) as [g|] eqn:Hi; try discriminate H;
    cbn in H; exists i, g; (split; [done|]);
    destruct (g_pc g) as [|r|r|r|r|r|r|r]; try discriminate H;
    injection H as <-; eauto.
Qed.

(** An action of [Run], of [checkAll] or of the environment leaves the
    store, the mirror, the metrics and the goroutines' program points as
    they are; it can only begin a cycle or append a fresh goroutine. *)
Lemma sched_step_frame l s s' :
  Run l s = Some s' ∨ checkAll l s = Some s' ∨ env_step l s = Some s' →
  results s' = results s ∧ rdb s' = rdb s ∧ metrics s' = metrics s
  ∧ ((pool s' = pool s ∧ cycle s' = cycle s)
     ∨ (pool s' = pool s ∧ cycle s' = S (cycle s))
     ∨ ∃ t rest, pc s = InCheckAll (t :: rest) ∧ cycle s' = cycle s
                 ∧ pool s' = pool s ++ [mkGoroutine (cycle s) t AtCheck]).
Proof.
  intros [H|[H|H]].
  - unfold Run in H. destruct l; try discriminate H;
      destruct (pc s); try discriminate H.
    + injection H as <-. cbn. auto 10.
    + destruct (ticker s); try discriminate H.
      destruct (decide (0 < interval c)); injection H as <-; cbn; auto 10.
    + destruct (ticker s); try discriminate H.
      all: destruct (done s); [|discriminate H].
      all: injection H as <-; cbn; auto 10.
    + destruct (ticker s) as [|[]|]; try discriminate H.
      injection H as <-. cbn. auto 10.
  - unfold checkAll in H. destruct l; try discriminate H;
      destruct (pc s) as [|[|t rest]| | |] eqn:Epc; try discriminate H.
    + injection H as <-. cbn. repeat split. right. right. by exists t, rest.
    + destruct (wg_zero s); [|discriminate H]. injection H as <-.
      cbn. auto 10.
  - destruct l; try discriminate H; cbn in H.
    + destruct (ticker s); try discriminate H. injection H as <-. cbn. auto 10.
    + injection H as <-. cbn. auto 10.
Qed.

Lemma step_split l s s' :
  step l s = Some s' →
  go_func l s = Some s'
  ∨ (Run l s = Some s' ∨ checkAll l s = Some s' ∨ env_step l s = Some s').
Proof. destruct l; unfold step; auto. Qed.

(** Induction over the reachable states, along labels that pass [ok]. *)
Lemma reachable_along (ok : Label Request → bool) (P : State → Prop) db :
  P (init db) →
  (∀ l s s', ok l = true → reachable db s → P s → step l s = Some s' →
             P s') →
  ∀ ls s, forallb ok ls = true → exec ls (init db) = Some s → P s.
Proof.
  intros H0 Hstep ls. induction ls as [|l ls IH] using rev_ind; intros s Hok H.
  - cbn in H. by injection H as <-.
  - rewrite forallb_app in Hok. apply andb_prop in Hok as [Hls Hl].
    cbn in Hl. rewrite andb_true_r in Hl.
    rewrite (exec_app Request NewRequestWithContext json_Marshal rev c ctx)
      in H.
    destruct (exec ls (init db)) as [s0|] eqn:E; [|discriminate H].
    cbn in H. destruct (step l s0) as [s1|] eqn:E1; [|discriminate H].
    cbn in H. injection H as <-.
    apply (Hstep l s0 s1); [done|by exists ls|by apply IH|done].
Qed.

Lemma reachable_preserves (P : State → Prop) db :
  P (init db) →
  (∀ l s s', reachable db s → P s → step l s = Some s' → P s') →
  ∀ s, reachable db s → P s.
Proof.
  intros H0 Hstep s [ls H].
  apply (reachable_along (fun _ => true) P db H0) with (ls := ls);
    [| |done].
  - intros l s0 s' _. apply Hstep.
  - clear. by induction ls.
Qed.

Lemma elem_of_insert_inv {A} (l : list A) i x y z :
  l !! i = Some x → z ∈ l → z ∈ <[i := y]> l ∨ z = x.
Proof.
  intros Hi Hz. apply list_elem_of_lookup in Hz as [j Hj].
  destruct (decide (j = i)) as [->|Hne].
  - right. congruence.
  - left. apply list_elem_of_lookup. exists j.
    by rewrite list_lookup_insert_ne.
Qed.

Lemma elem_of_insert_new {A} (l : list A) i x y :
  l !! i = Some x → y ∈ <[i := y]> l.
Proof.
  intros Hi. apply list_elem_of_lookup. exists i.
  apply list_lookup_insert_eq. by eapply lookup_lt_Some.
Qed.

Lemma elem_of_insert_old {A} (l : list A) i y z :
  z ∈ <[i := y]> l → z = y ∨ z ∈ l.
Proof.
  intros Hz. apply list_elem_of_lookup in Hz as [j Hj].
  destruct (decide (j = i)) as [->|Hne].
  - destruct (decide (i < length l)%nat).
    + rewrite list_lookup_insert_eq in Hj by done. left. congruence.
    + rewrite list_insert_ge in Hj by lia. right.
      by eapply list_elem_of_lookup_2.
  - rewrite list_lookup_insert_ne in Hj by done. right.
    by eapply list_elem_of_lookup_2.
Qed.

(** *** Where the goroutines and the entries come from *)

(** Every goroutine ever spawned probes a configured target. *)
Lemma pool_targets db s :
  reachable db s → Forall (fun g => g_target g ∈ targets c) (pool s).
Proof.
  apply (reachable_preserves
           (fun s => Forall (fun g => g_target g ∈ targets c) (pool s))).
  { constructor. }
  intros l s0 s' Hs0 HP H.
  destruct (reachable_invariant Request NewRequestWithContext json_Marshal
              rev c ctx db s0 Hs0) as (old & cur & HI).
  destruct (step_split l s0 s' H) as [Hg|Hs].
  - destruct (go_func_spec Request NewRequestWithContext json_Marshal rev c
                ctx l s0 s' Hg) as (i & g & p & Hi & -> & _).
    apply Forall_insert; [done|]. cbn. rewrite Forall_lookup in HP. eauto.
  - destruct (sched_step_frame l s0 s' Hs)
      as (_ & _ & _ & [[-> _]|[[-> _]|(t & rest & Epc & _ & ->)]]);
      [done|done|].
    apply Forall_app. split; [done|]. constructor; [|constructor]. cbn.
    destruct HI as [_ _ _ Ipc _ _ _ _ _]. rewrite Epc in Ipc.
    destruct Ipc as [<- _]. apply elem_of_app. right. by left.
Qed.

Lemma stored_produced p r : stored p = Some r → produced p = Some r.
Proof. by destruct p. Qed.

(** Every entry of [c.results] was written by a goroutine whose target
    has the key as its name. *)
Lemma store_written_by db s :
  reachable db s →
  ∀ k r, results s !! k = Some r →
         ∃ g, g ∈ pool s ∧ config.Name (g_target g) = k
              ∧ stored (g_pc g) = Some r.
Proof.
  apply (reachable_preserves
           (fun s => ∀ k r, results s !! k = Some r →
                            ∃ g, g ∈ pool s ∧ config.Name (g_target g) = k
                                 ∧ stored (g_pc g) = Some r)).
  { intros k r H. cbn in H. by rewrite lookup_empty in H. }
  intros l s0 s' _ HP H k r Hk.
  destruct (step_split l s0 s' H) as [Hg|Hs].
  - destruct (go_func_spec Request NewRequestWithContext json_Marshal rev c
                ctx l s0 s' Hg) as (i & g & p & Hi & Hpool & _ & _ & _ & _ & _ & Htr).
    rewrite Hpool.
    set (g' := mkGoroutine (g_cycle g) (g_target g) p).
    assert (Hnew : g' ∈ <[i := g']> (pool s0)) by by eapply elem_of_insert_new.
    destruct (go_trans_results _ _ _ _ _ _ _ _ _ Htr) as [E|(r' & Hr' & E)];
      rewrite E in Hk.
    + destruct (HP k r Hk) as (g0 & Hg0 & Hn0 & Hs0).
      destruct (elem_of_insert_inv _ i g g' g0 Hi Hg0) as [? | ->]; [by eauto|].
      exists g'. repeat split; [done|done|]. cbn.
      destruct Htr as [| ? ? ? [-> | ->] | | | | |]; cbn in *; congruence.
    + destruct (decide (config.Name (g_target g) = k)) as [<-|Hne].
      * rewrite lookup_insert_eq in Hk. injection Hk as <-.
        exists g'. by repeat split.
      * rewrite lookup_insert_ne in Hk by done.
        destruct (HP k r Hk) as (g0 & Hg0 & Hn0 & Hs0).
        destruct (elem_of_insert_inv _ i g g' g0 Hi Hg0) as [? | ->];
          [by eauto|congruence].
  - destruct (sched_step_frame l s0 s' Hs)
      as (Hr & _ & _ & Hp). rewrite Hr in Hk.
    destruct (HP k r Hk) as (g0 & Hg0 & Hn0 & Hs0). exists g0.
    repeat split; try done.
    destruct Hp as [[-> _]|[[-> _]|(t & rest & _ & _ & ->)]]; [done|done|].
    apply elem_of_app. by left.
Qed.

Lemma check_fields target w :
  Result.Target (fst (check target w)) = config.Name target
  ∧ Result.URL (fst (check target w)) = config.URL target.
Proof.
  destruct (check_paths Request NewRequestWithContext (client c) ctx
              target w)
    as [[err E]|[(req & err & E1 & E2)|(req & resp & E1 & E2)]].
  - by rewrite (check_bad_request _ _ _ _ _ _ _ E).
  - by rewrite (check_request_failed _ _ _ _ _ _ _ _ E1 E2).
  - by rewrite (check_response _ _ _ _ _ _ _ _ E1 E2).
Qed.

(** X2: every entry of [c.results] is the result of a probe of a
    configured target whose name is the key: its [Target] field is the key
    and its [URL] is that target's. The store never holds a key that is no
    target name, nor a result filed under another name. *)
Theorem store_entries_are_probe_results db s k r :
  reachable db s → results s !! k = Some r →
  ∃ t w, t ∈ targets c ∧ config.Name t = k ∧ r = fst (check t w)
         ∧ Result.Target r = k ∧ Result.URL r = config.URL t.
Proof.
  intros Hs Hk.
  destruct (store_written_by db s Hs k r Hk) as (g & Hg & Hn & Hst).
  pose proof (pool_targets db s Hs) as Ht. rewrite Forall_forall in Ht.
  destruct (reachable_invariant Request NewRequestWithContext json_Marshal
              rev c ctx db s Hs) as (old & cur & [_ _ _ _ Iprod _ _ _ _]).
  rewrite Forall_forall in Iprod.
  destruct (Iprod g Hg r (stored_produced _ _ Hst)) as [w ->].
  exists (g_target g), w. destruct (check_fields (g_target g) w) as [E1 E2].
  repeat split; auto. by rewrite E1.
Qed.

(** X3: a checker without targets never spawns a goroutine and never
    writes an entry, however many cycles it runs. *)
Theorem no_targets_no_entries db s :
  targets c = [] → reachable db s → pool s = [] ∧ results s = ∅.
Proof.
  intros Hnil Hs.
  pose proof (pool_targets db s Hs) as Ht. rewrite Hnil in Ht.
  assert (Hp : pool s = []).
  { destruct (pool s) as [|g gs]; [done|].
    apply Forall_cons in Ht as [Hg _]. by apply elem_of_nil in Hg. }
  split; [done|]. apply map_empty. intros k.
  destruct (results s !! k) as [r|] eqn:Hk; [|done].
  destruct (store_written_by db s Hs k r Hk) as (g & Hg & _).
  rewrite Hp in Hg. by apply elem_of_nil in Hg.
Qed.

(** *** What never goes back *)

Lemma go_func_counters l s s' :
  go_func l s = Some s' →
  cycle s' = cycle s ∧ completed s' = completed s
  ∧ length (pool s') = length (pool s)
  ∧ ∀ k, is_Some (results s !! k) → is_Some (results s' !! k).
Proof.
  intros H.
  destruct (go_func_spec Request NewRequestWithContext json_Marshal rev c
              ctx l s s' H)
    as (i & g & p & Hi & Hpool & _ & Hcy & Hco & _ & _ & Htr).
  repeat split; try done.
  - by rewrite Hpool, length_insert.
  - intros k. by eapply go_trans_mono.
Qed.

Lemma lines_complete_snoc l e :
  lines_complete (l ++ [e])
  = (lines_complete l + if is_check_complete e then 1 else 0)%nat.
Proof.
  unfold lines_complete. rewrite sum_list_with_app. f_equal. cbn.
  by destruct (is_check_complete e).
Qed.

Lemma sched_step_counters l s s' :
  Run l s = Some s' ∨ checkAll l s = Some s' ∨ env_step l s = Some s' →
  (cycle s ≤ cycle s')%nat ∧ (completed s ≤ completed s')%nat
  ∧ lines_complete (logger s') = lines_complete (logger s).
Proof.
  intros [H|[H|H]].
  - unfold Run in H. destruct l; try discriminate H;
      destruct (pc s); try discriminate H.
    + injection H as <-. cbn [cycle completed logger set_pc set_cycle log].
      rewrite lines_complete_snoc. cbn. repeat split; lia.
    + destruct (ticker s); try discriminate H.
      destruct (decide (0 < interval c)); injection H as <-; cbn;
        repeat split; lia.
    + destruct (ticker s); try discriminate H.
      all: destruct (done s); [|discriminate H]; injection H as <-.
      all: cbn [cycle completed logger set_pc set_ticker log].
      all: rewrite lines_complete_snoc; cbn; repeat split; lia.
    + destruct (ticker s) as [|[]|]; try discriminate H.
      injection H as <-. cbn. repeat split; lia.
  - unfold checkAll in H. destruct l; try discriminate H;
      destruct (pc s) as [|[|t rest]| | |] eqn:Epc; try discriminate H.
    + injection H as <-. cbn. repeat split; lia.
    + destruct (wg_zero s); [|discriminate H]. injection H as <-.
      cbn; repeat split; lia.
  - destruct l; try discriminate H; cbn in H.
    + destruct (ticker s); try discriminate H. injection H as <-. cbn. repeat split; lia.
    + injection H as <-. cbn. repeat split; lia.
Qed.

(** X4: no action ever removes an entry of [c.results], and the numbers
    of cycles started, of cycles completed and of goroutines spawned never
    decrease. This holds from any state, reachable or not. *)
Theorem entries_never_removed ls s s' :
  exec ls s = Some s' →
  (∀ k, is_Some (results s !! k) → is_Some (results s' !! k))
  ∧ (cycle s ≤ cycle s')%nat ∧ (completed s ≤ completed s')%nat
  ∧ (length (pool s) ≤ length (pool s'))%nat.
Proof.
  revert s. induction ls as [|l ls IH]; intros s H; cbn in H.
  { injection H as <-. auto. }
  destruct (step l s) as [s1|] eqn:E; [|discriminate H]. cbn in H.
  destruct (IH s1 H) as (Hr & Hc & Hco & Hp).
  assert ((∀ k, is_Some (results s !! k) → is_Some (results s1 !! k))
          ∧ (cycle s ≤ cycle s1)%nat ∧ (completed s ≤ completed s1)%nat
          ∧ (length (pool s) ≤ length (pool s1))%nat)
    as (Hr1 & Hc1 & Hco1 & Hp1).
  { destruct (step_split l s s1 E) as [Hg|Hs].
    - destruct (go_func_counters l s s1 Hg) as (-> & -> & -> & ?). auto.
    - destruct (sched_step_frame l s s1 Hs) as (-> & _ & _ & Hpool).
      destruct (sched_step_counters l s s1 Hs) as (? & ? & _).
      repeat split; auto.
      destruct Hpool as [[-> _]|[[-> _]|(t & rest & _ & _ & ->)]];
        [done|done|].
      rewrite length_app. lia. }
  repeat split; [auto|lia..].
Qed.

(** *** The cancellation signal *)







(** *** A checker whose interval is not positive *)

(** X14: [time.NewTicker] panics on an interval that is not positive, so
    such a checker runs its first cycle and nothing more: in every state
    it reaches the ticker does not exist, [Run] has not returned and no
    second cycle has begun; once [checkAll] has returned, the only action
    left to the program is the panic. *)
Theorem nonpositive_interval_one_cycle db s :
  ¬ (0 < interval c) → reachable db s →
  ticker s = NotCreated ∧ pc s ≠ Returned ∧ (cycle s ≤ 1)%nat
  ∧ (pc s = Panicked → completed s = 1%nat)
  ∧ (pc s = AtSelect →
     step NewTicker s = Some (set_pc Panicked s)
     ∧ ∀ l s', is_env l = false → step l s = Some s' → l = NewTicker).
Proof.
  intros Hint Hs.
  assert (HP : ticker s = NotCreated ∧ pc s ≠ Returned ∧ (cycle s ≤ 1)%nat).
  { revert s Hs.
    apply (reachable_preserves
             (fun s => ticker s = NotCreated ∧ pc s ≠ Returned
                       ∧ (cycle s ≤ 1)%nat)).
    { cbn. repeat split; [done|lia]. }
    intros l s0 s' Hs0 (Htk & Hpc & Hcy) H.
    destruct (step_split l s0 s' H) as [Hg|[Hr|[Hc|He]]].
    - destruct (go_func_spec Request NewRequestWithContext json_Marshal rev
                  c ctx l s0 s' Hg)
        as (i & g & p & _ & _ & -> & -> & _ & -> & _). by repeat split.
    - unfold Run in Hr. destruct l; try discriminate Hr;
        destruct (pc s0) eqn:Epc; try discriminate Hr;
        rewrite ?Htk in Hr; try discriminate Hr.
      + injection Hr as <-. cbn. repeat split; [done|done|].
        destruct (reachable_invariant Request NewRequestWithContext
                    json_Marshal rev c ctx db s0 Hs0)
          as (old & cur & [_ _ _ Ipc _ _ _ _ _]).
        rewrite Epc in Ipc. destruct Ipc as (-> & _). lia.
      + destruct (decide (0 < interval c)); [done|].
        injection Hr as <-. by cbn.
    - destruct (sched_step_frame l s0 s' (or_intror (or_introl Hc)))
        as (_ & _ & _ & Hp).
      unfold checkAll in Hc. destruct l; try discriminate Hc;
        destruct (pc s0) as [|[|t rest]| | |]; try discriminate Hc.
      + injection Hc as <-. by cbn.
      + destruct (wg_zero s0); [|discriminate Hc]. injection Hc as <-.
        by cbn.
    - destruct l; try discriminate He; cbn in He.
      + rewrite Htk in He. discriminate He.
      + injection He as <-. by cbn. }
  destruct HP as (Htk & Hpc & Hcy). repeat split; try done.
  - intros Epc.
    destruct (reachable_invariant Request NewRequestWithContext json_Marshal
                rev c ctx db s Hs) as (old & cur & [_ _ _ Ipc _ _ _ _ _]).
    rewrite Epc in Ipc. destruct Ipc as (_ & ? & ? & _). lia.
  - unfold step, Run. rewrite H, Htk.
    by destruct (decide (0 < interval c)).
  - intros l s' Hl Hst.
    destruct (step_split l s s' Hst) as [Hg|[Hr|[Hc|He]]].
    + destruct (reachable_invariant Request NewRequestWithContext
                  json_Marshal rev c ctx db s Hs) as (old & cur & HI).
      destruct (go_func_Inv Request NewRequestWithContext json_Marshal rev c
                  ctx l s s' old cur HI Hg) as [[rest Epc] _]. congruence.
    + unfold Run in Hr. destruct l; try discriminate Hr; rewrite H in Hr;
        try discriminate Hr; rewrite ?Htk in Hr; try discriminate Hr. done.
    + unfold checkAll in Hc. destruct l; try discriminate Hc;
        rewrite H in Hc; discriminate Hc.
    + destruct l; try discriminate Hl; discriminate He.
Qed.

(** *** Every probe is counted once *)

Lemma sum_list_with_insert {A} (f : A → nat) (l : list A) i x y :
  l !! i = Some x →
  (sum_list_with f (<[i := y]> l) + f x = sum_list_with f l + f y)%nat.
Proof.
  revert i. induction l as [|a l IH]; intros [|i] Hi; try done.
  - injection Hi as ->.
    change (f y + sum_list_with f l + f x
            = f x + sum_list_with f l + f y)%nat. lia.
  - change (f a + sum_list_with f (<[i := y]> l) + f x
            = f a + sum_list_with f l + f y)%nat.
    specialize (IH i Hi). lia.
Qed.

Lemma map_total_insert {A} (f : A → nat) `{Countable K}
    (m : gmap K A) k v :
  (map_fold (fun _ x acc => f x + acc) O (<[k := v]> m)
   + default O (f <$> m !! k)
   = f v + map_fold (fun _ x acc => f x + acc) O m)%nat.
Proof.
  assert (∀ (m0 : gmap K A) x, m0 !! k = None →
            map_fold (fun _ x acc => f x + acc)%nat O (<[k := x]> m0)
            = (f x + map_fold (fun _ x acc => f x + acc) O m0)%nat) as Hins.
  { intros m0 x Hm0.
    apply (map_fold_insert_L (fun _ x acc => f x + acc)%nat); [|done].
    intros. lia. }
  destruct (m !! k) as [x|] eqn:Hk; cbn.
  - pose proof (Hins (delete k m) v (lookup_delete_eq m k)) as A1.
    pose proof (Hins (delete k m) x (lookup_delete_eq m k)) as A2.
    rewrite insert_delete_eq in A1.
    rewrite insert_delete_id in A2 by done. lia.
  - rewrite Hins by done. lia.
Qed.

Lemma map_total_bump {A} (f : A → nat) `{Countable K}
    (m : gmap K A) k v :
  f v = S (default O (f <$> m !! k)) →
  map_fold (fun _ x acc => f x + acc)%nat O (<[k := v]> m)
  = S (map_fold (fun _ x acc => f x + acc)%nat O m).
Proof.
  intros Hv. pose proof (map_total_insert f m k v) as E. lia.
Qed.

Lemma default_fmap_id (o : option nat) :
  default O o = default O ((fun n => n) <$> o).
Proof. by destruct o. Qed.

Lemma default_fmap_length {A} (o : option (list A)) :
  length (default [] o) = default O (length <$> o).
Proof. by destruct o. Qed.

Lemma Observe_counts name r m :
  checks_counted (Observe name r m) = checks_counted m
  ∧ durations_observed (Observe name r m) = S (durations_observed m).
Proof.
  unfold checks_counted, durations_observed, Observe. cbn. split; [done|].
  apply (map_total_bump (@length Z)). cbn. f_equal.
  apply default_fmap_length.
Qed.

Lemma Inc_counts name r m :
  checks_counted (Inc name r m) = S (checks_counted m)
  ∧ durations_observed (Inc name r m) = durations_observed m.
Proof.
  unfold checks_counted, durations_observed, Inc. cbn. split; [|done].
  apply (map_total_bump (fun n : nat => n)). cbn. f_equal.
  apply default_fmap_id.
Qed.

Lemma Set_up_counts name r m :
  checks_counted (Set_up name r m) = checks_counted m
  ∧ durations_observed (Set_up name r m) = durations_observed m.
Proof. done. Qed.

Lemma storeResult_lines fault ctx0 name r s :
  lines_complete (logger (storeResult fault ctx0 name r s))
  = lines_complete (logger s)
  ∧ ∃ extra, logger (storeResult fault ctx0 name r s) = logger s ++ extra
             ∧ Forall (fun e => from_Run e = false) extra.
Proof.
  unfold storeResult. destruct (json_Marshal r) as [data|err].
  - destruct fault as [err|]; cbn.
    + rewrite lines_complete_snoc. cbn. split; [lia|].
      eexists [_]. split; [done|]. by repeat constructor.
    + split; [done|]. exists []. by rewrite app_nil_r.
  - cbn. rewrite lines_complete_snoc. cbn. split; [lia|].
    eexists [_]. split; [done|]. by repeat constructor.
Qed.

Local Abbreviation observed_of :=
  (fun g : Goroutine => observed_at (g_pc g)).
Local Abbreviation counted_of := (fun g : Goroutine => counted_at (g_pc g)).
Local Abbreviation logged_of := (fun g : Goroutine => logged_at (g_pc g)).

Lemma pool_sum_move (f : GoPc → nat) (gs : list Goroutine) i g p :
  gs !! i = Some g →
  (sum_list_with (fun g => f (g_pc g))
     (<[i := mkGoroutine (g_cycle g) (g_target g) p]> gs) + f (g_pc g)
   = sum_list_with (fun g => f (g_pc g)) gs + f p)%nat.
Proof.
  intros Hi.
  apply (sum_list_with_insert (fun g => f (g_pc g)) gs i g
           (mkGoroutine (g_cycle g) (g_target g) p) Hi).
Qed.

(** The metrics and the log follow the goroutines: a probe is observed,
    counted and logged when its goroutine passes the statement that does
    it. *)
Lemma accounts_follow_pool db s :
  reachable db s →
  checks_counted (metrics s) = sum_list_with counted_of (pool s)
  ∧ durations_observed (metrics s) = sum_list_with observed_of (pool s)
  ∧ lines_complete (logger s) = sum_list_with logged_of (pool s).
Proof.
  apply (reachable_preserves
           (fun s =>
              checks_counted (metrics s) = sum_list_with counted_of (pool s)
              ∧ durations_observed (metrics s)
                = sum_list_with observed_of (pool s)
              ∧ lines_complete (logger s)
                = sum_list_with logged_of (pool s))).
  { by cbn. }
  intros l s0 s' _ (Hc & Hd & Hl) H.
  destruct (step_split l s0 s' H) as [Hg|Hs].
  - destruct (go_func_inv l s0 s' Hg) as (i & g & Hi & Hcase).
    pose proof (fun p => pool_sum_move counted_at (pool s0) i g p Hi) as Sc.
    pose proof (fun p => pool_sum_move observed_at (pool s0) i g p Hi) as So.
    pose proof (fun p => pool_sum_move logged_at (pool s0) i g p Hi) as Sl.
    destruct (g_pc g) as [|r|r|r|r|r|r|r] eqn:Epc; [| | | | | | |done].
    + destruct Hcase as (w & _ & ->).
      specialize (Sc (AtStore (fst (check (g_target g) w)))).
      specialize (So (AtStore (fst (check (g_target g) w)))).
      specialize (Sl (AtStore (fst (check (g_target g) w)))).
      cbn [metrics pool logger set_goroutine set_pool].
      cbn [counted_at observed_at logged_at] in Sc, So, Sl.
      repeat split; lia.
    + destruct Hcase as (_ & ->).
      specialize (Sc (match rev with
                      | InMemory => AtMetrics r
                      | RedisBacked => AtMirror r
                      end)).
      specialize (So (match rev with
                      | InMemory => AtMetrics r
                      | RedisBacked => AtMirror r
                      end)).
      specialize (Sl (match rev with
                      | InMemory => AtMetrics r
                      | RedisBacked => AtMirror r
                      end)).
      cbn [metrics pool logger set_goroutine set_pool set_results].
      destruct rev; cbn [counted_at observed_at logged_at] in Sc, So, Sl;
        repeat split; lia.
    + destruct Hcase as (fault & _ & ->).
      specialize (Sc (AtMetrics r)). specialize (So (AtMetrics r)).
      specialize (Sl (AtMetrics r)).
      cbn [metrics pool logger set_goroutine set_pool].
      destruct (storeResult_frame json_Marshal fault ctx
                  (config.Name (g_target g)) r s0)
        as (_ & -> & _ & _ & _ & _ & _ & ->).
      destruct (storeResult_lines fault ctx (config.Name (g_target g)) r s0)
        as [-> _].
      cbn [counted_at observed_at logged_at] in Sc, So, Sl.
      repeat split; lia.
    + destruct Hcase as (_ & ->).
      specialize (Sc (AtInc r)). specialize (So (AtInc r)).
      specialize (Sl (AtInc r)).
      cbn [metrics pool logger set_goroutine set_pool set_metrics].
      destruct (Observe_counts (config.Name (g_target g)) r (metrics s0))
        as [-> ->].
      cbn [counted_at observed_at logged_at] in Sc, So, Sl.
      repeat split; lia.
    + destruct Hcase as (_ & ->).
      specialize (Sc (AtSet r)). specialize (So (AtSet r)).
      specialize (Sl (AtSet r)).
      cbn [metrics pool logger set_goroutine set_pool set_metrics].
      destruct (Inc_counts (config.Name (g_target g)) r (metrics s0))
        as [-> ->].
      cbn [counted_at observed_at logged_at] in Sc, So, Sl.
      repeat split; lia.
    + destruct Hcase as (_ & ->).
      specialize (Sc (AtLog r)). specialize (So (AtLog r)).
      specialize (Sl (AtLog r)).
      cbn [metrics pool logger set_goroutine set_pool set_metrics].
      destruct (Set_up_counts (config.Name (g_target g)) r (metrics s0))
        as [-> ->].
      cbn [counted_at observed_at logged_at] in Sc, So, Sl.
      repeat split; lia.
    + destruct Hcase as (_ & ->).
      specialize (Sc (Exited r)). specialize (So (Exited r)).
      specialize (Sl (Exited r)).
      cbn [metrics pool logger set_goroutine set_pool log].
      rewrite lines_complete_snoc.
      cbn [counted_at observed_at logged_at is_check_complete] in *.
      repeat split; lia.
  - destruct (sched_step_frame l s0 s' Hs) as (_ & _ & -> & Hp).
    destruct (sched_step_counters l s0 s' Hs) as (_ & _ & ->).
    destruct Hp as [[-> _]|[[-> _]|(t & rest & _ & _ & ->)]]; [done|done|].
    rewrite !sum_list_with_app.
    cbn [sum_list_with g_pc counted_at observed_at logged_at].
    repeat split; lia.
Qed.

(** Each call of [checkAll] spawns one goroutine per target. *)
Lemma pool_size db s :
  reachable db s →
  match pc s with
  | Entry => pool s = [] ∧ cycle s = O
  | InCheckAll rest =>
      (length (pool s) + length rest = cycle s * length (targets c))%nat
  | AtSelect | Returned | Panicked =>
      length (pool s) = (cycle s * length (targets c))%nat
  end.
Proof.
  apply (reachable_preserves
           (fun s =>
              match pc s with
              | Entry => pool s = [] ∧ cycle s = O
              | InCheckAll rest =>
                  (length (pool s) + length rest
                   = cycle s * length (targets c))%nat
              | AtSelect | Returned | Panicked =>
                  length (pool s) = (cycle s * length (targets c))%nat
              end)).
  { by cbn. }
  intros l s0 s' _ HP H.
  destruct (step_split l s0 s' H) as [Hg|[Hs|[Hs|Hs]]].
  - destruct (go_func_spec Request NewRequestWithContext json_Marshal rev c
                ctx l s0 s' Hg)
      as (i & g & p & Hi & -> & -> & -> & _).
    rewrite length_insert. destruct (pc s0); try done.
    destruct HP as [Hnil _]. by rewrite Hnil in Hi.
  - unfold Run in Hs. destruct l; try discriminate Hs;
      destruct (pc s0) eqn:Epc; try discriminate Hs.
    + injection Hs as <-. destruct HP as [Hp Hc]. cbn. rewrite Hp, Hc.
      cbn. lia.
    + destruct (ticker s0) eqn:Et; try discriminate Hs.
      destruct (decide (0 < interval c)); injection Hs as <-; [|done].
      cbn. by rewrite Epc.
    + destruct (ticker s0); try discriminate Hs.
      all: destruct (done s0); [|discriminate Hs]; by injection Hs as <-.
    + destruct (ticker s0) as [|[]|]; try discriminate Hs.
      injection Hs as <-. cbn. rewrite HP. lia.
  - unfold checkAll in Hs. destruct l; try discriminate Hs;
      destruct (pc s0) as [|[|t rest]| | |]; try discriminate Hs.
    + injection Hs as <-. cbn in *. rewrite length_app. cbn. lia.
    + destruct (wg_zero s0); [|discriminate Hs]. injection Hs as <-.
      cbn in HP. cbn. lia.
  - destruct l; try discriminate Hs; cbn in Hs.
    + destruct (ticker s0); try discriminate Hs. by injection Hs as <-.
    + by injection Hs as <-.
Qed.

Lemma in_flight_all_exited s :
  in_flight s = false → Forall (fun g => exited g = true) (pool s).
Proof.
  unfold in_flight. induction (pool s) as [|g gs IH]; [done|]. cbn.
  intros H. apply orb_false_iff in H as [Hg Hgs].
  constructor; [|by apply IH]. by destruct (exited g).
Qed.

(** X5: the three Prometheus updates and the log line of a goroutine
    are separate statements, so the figures can differ while goroutines
    are running, but only in one direction: at any time no more probes
    are logged than counted in [kenko_check_total], no more counted than
    observed by the histogram, and no more observed than goroutines
    spawned. Between cycles every probe of every completed cycle has been
    observed, counted and logged exactly once: all four numbers equal the
    number of completed cycles times the number of targets. *)
Theorem every_probe_counted_once db s :
  reachable db s →
  (lines_complete (logger s) ≤ checks_counted (metrics s))%nat
  ∧ (checks_counted (metrics s) ≤ durations_observed (metrics s))%nat
  ∧ (durations_observed (metrics s) ≤ length (pool s))%nat
  ∧ (quiescent s = true →
     length (pool s) = (completed s * length (targets c))%nat
     ∧ durations_observed (metrics s) = length (pool s)
     ∧ checks_counted (metrics s) = length (pool s)
     ∧ lines_complete (logger s) = length (pool s)).
Proof.
  intros Hs. destruct (accounts_follow_pool db s Hs) as (Hc & Hd & Hl).
  assert (∀ l : list Goroutine,
            (sum_list_with logged_of l ≤ sum_list_with counted_of l)%nat
            ∧ (sum_list_with counted_of l ≤ sum_list_with observed_of l)%nat
            ∧ (sum_list_with observed_of l ≤ length l)%nat
            ∧ (Forall (fun g => exited g = true) l →
               sum_list_with logged_of l = length l
               ∧ sum_list_with counted_of l = length l
               ∧ sum_list_with observed_of l = length l)) as Hsum.
  { induction l as [|g l (IH1 & IH2 & IH3 & IH4)]; [done|].
    change (sum_list_with logged_of (g :: l))
      with (logged_at (g_pc g) + sum_list_with logged_of l)%nat.
    change (sum_list_with counted_of (g :: l))
      with (counted_at (g_pc g) + sum_list_with counted_of l)%nat.
    change (sum_list_with observed_of (g :: l))
      with (observed_at (g_pc g) + sum_list_with observed_of l)%nat.
    change (length (g :: l)) with (S (length l)).
    unfold exited. split; [|split; [|split]].
    - destruct (g_pc g); cbn [logged_at counted_at observed_at]; lia.
    - destruct (g_pc g); cbn [logged_at counted_at observed_at]; lia.
    - destruct (g_pc g); cbn [logged_at counted_at observed_at]; lia.
    - intros H. apply Forall_cons in H as [Hg Hl'].
      destruct (IH4 Hl') as (-> & -> & ->).
      by destruct (g_pc g). }
  destruct (Hsum (pool s)) as (H1 & H2 & H3 & H4).
  split; [lia|]. split; [lia|]. split; [lia|]. intros Hq.
  destruct (quiescent_settled Request NewRequestWithContext c ctx s)
    as (Hfl & Hcy & _); [|done|].
  { by eapply reachable_invariant. }
  destruct (H4 (in_flight_all_exited s Hfl)) as (E1 & E2 & E3).
  pose proof (pool_size db s Hs) as Hsz. unfold quiescent in Hq.
  split; [|split; [lia|split; lia]].
  destruct (pc s); try discriminate Hq; by rewrite <- Hcy.
Qed.

(** *** Goroutines of the latest cycle *)

Lemma pool_cycle_le s old cur :
  Inv s old cur → Forall (fun g => (g_cycle g ≤ cycle s)%nat) (pool s).
Proof.
  intros [Ipool Iold Icur _ _ _ _ _ _]. rewrite Ipool. apply Forall_app. split.
  - eapply Forall_impl; [exact Iold|]. cbn. intros g [_ ?]. lia.
  - eapply Forall_impl; [exact Icur|]. cbn. intros g ->. lia.
Qed.

Lemma current_in_cur s old cur i g :
  Inv s old cur → pool s !! i = Some g → g_cycle g = cycle s →
  (length old ≤ i)%nat ∧ cur !! (i - length old)%nat = Some g.
Proof.
  intros [Ipool Iold _ _ _ _ _ _ _] Hi Hc. rewrite Ipool in Hi.
  apply lookup_app_Some in Hi as [Hi|[Hle Hi]]; [|done].
  rewrite Forall_lookup in Iold. destruct (Iold _ _ Hi) as [_ Hlt]. lia.
Qed.

Lemma running_current s old cur i g :
  Inv s old cur → pool s !! i = Some g → exited g = false →
  g_cycle g = cycle s.
Proof.
  intros HI Hi Hrun. destruct HI as [Ipool Iold Icur _ _ _ _ _ _].
  rewrite Ipool in Hi. apply lookup_app_Some in Hi as [Hi|[Hle Hi]].
  - rewrite Forall_lookup in Iold. destruct (Iold _ _ Hi). congruence.
  - rewrite Forall_lookup in Icur. by eapply Icur.
Qed.

(** With names all different, two goroutines of the latest cycle with the
    same target name are the same goroutine. *)
Lemma current_names_inj s old cur i j g g' :
  Inv s old cur → NoDup (config.Name <$> targets c) →
  pool s !! i = Some g → pool s !! j = Some g' →
  g_cycle g = cycle s → g_cycle g' = cycle s →
  config.Name (g_target g) = config.Name (g_target g') → i = j.
Proof.
  intros HI Hnd Hi Hj Hc Hc' Hn.
  destruct (current_in_cur s old cur i g HI Hi Hc) as [Hle Hi'].
  destruct (current_in_cur s old cur j g' HI Hj Hc') as [Hle' Hj'].
  destruct HI as [Ipool _ _ Ipc _ _ _ _ _].
  assert (∃ rest, (g_target <$> cur) ++ rest = targets c) as [rest Htg].
  { destruct (pc s) as [|rest| | |].
    - destruct Ipc as (_ & _ & Hnil & _). by rewrite Hnil in Hi.
    - destruct Ipc as [? _]. by exists rest.
    - destruct Ipc as [? _]. exists []. by rewrite app_nil_r.
    - destruct Ipc as [? _]. exists []. by rewrite app_nil_r.
    - destruct Ipc as [? _]. exists []. by rewrite app_nil_r. }
  rewrite <- Htg, fmap_app in Hnd. apply NoDup_app in Hnd as [Hnd _].
  assert (i - length old = j - length old)%nat; [|lia].
  apply (NoDup_lookup _ _ _ (config.Name (g_target g)) Hnd).
  - by rewrite !list_lookup_fmap, Hi'.
  - rewrite !list_lookup_fmap, Hj'. cbn. by rewrite Hn.
Qed.

(** *** Registers written once per goroutine

    [c.results], the up gauge and the Redis hash are each written once by
    every goroutine, under the name of its target. [mark] says what a
    goroutine at a program point has written, if it has; a register is
    [settled] when it holds, for every goroutine of the latest cycle, what
    that goroutine wrote. *)
Section LatestWriter.
Variable V : Type.
Variable mark : GoPc → option V.

Local Abbreviation settled gs cyc reg :=
  (∀ i g v, gs !! i = Some g → g_cycle g = cyc → mark (g_pc g) = Some v →
            (reg : gmap string V) !! config.Name (g_target g) = Some v).

Lemma settled_keep (gs : list Goroutine) cyc reg i0 g0 p :
  settled gs cyc reg → gs !! i0 = Some g0 →
  (∀ v, mark p = Some v → mark (g_pc g0) = Some v) →
  settled (<[i0 := mkGoroutine (g_cycle g0) (g_target g0) p]> gs) cyc reg.
Proof.
  intros HP Hi0 Hp i g v Hi Hc Hm.
  destruct (decide (i = i0)) as [->|Hne].
  - rewrite list_lookup_insert_eq in Hi by (by eapply lookup_lt_Some).
    injection Hi as <-. cbn in *. eauto.
  - rewrite list_lookup_insert_ne in Hi by done. eauto.
Qed.

Lemma settled_write (gs : list Goroutine) cyc reg i0 g0 p v0 :
  settled gs cyc reg → gs !! i0 = Some g0 →
  (∀ j g', gs !! j = Some g' → g_cycle g' = cyc →
           config.Name (g_target g') = config.Name (g_target g0) → j = i0) →
  mark p = Some v0 →
  settled (<[i0 := mkGoroutine (g_cycle g0) (g_target g0) p]> gs) cyc
    (<[config.Name (g_target g0) := v0]> reg).
Proof.
  intros HP Hi0 Hinj Hp i g v Hi Hc Hm.
  destruct (decide (i = i0)) as [->|Hne].
  - rewrite list_lookup_insert_eq in Hi by (by eapply lookup_lt_Some).
    injection Hi as <-. cbn in *. rewrite lookup_insert_eq. congruence.
  - rewrite list_lookup_insert_ne in Hi by done.
    rewrite lookup_insert_ne; [by eauto|].
    intros Hn. apply Hne. by eapply Hinj.
Qed.

Lemma settled_spawn (gs : list Goroutine) cyc reg t :
  settled gs cyc reg → mark AtCheck = None →
  settled (gs ++ [mkGoroutine cyc t AtCheck]) cyc reg.
Proof.
  intros HP Hm i g v Hi Hc Hv.
  apply lookup_app_Some in Hi as [Hi|[_ Hi]]; [by eauto|].
  apply list_lookup_singleton_Some in Hi as [_ <-]. cbn in Hv. congruence.
Qed.

Lemma settled_next (gs : list Goroutine) cyc reg :
  Forall (fun g => (g_cycle g ≤ cyc)%nat) gs → settled gs (S cyc) reg.
Proof.
  intros Hle i g v Hi Hc _. rewrite Forall_lookup in Hle.
  specialize (Hle _ _ Hi). lia.
Qed.
End LatestWriter.

(** *** The up gauge *)

Lemma up_value_range r : up_value r = 0 ∨ up_value r = 1.
Proof. unfold up_value. case_decide; auto. Qed.

Lemma targetUp_Set_up name r m :
  targetUp (Set_up name r m) = <[name := up_value r]> (targetUp m).
Proof. done. Qed.

(** The gauge only ever holds 0 or 1, under names of targets. *)
Lemma gauge_range db s :
  reachable db s →
  ∀ k v, targetUp (metrics s) !! k = Some v →
         (v = 0 ∨ v = 1) ∧ k ∈ config.Name <$> targets c.
Proof.
  apply (reachable_preserves
           (fun s => ∀ k v, targetUp (metrics s) !! k = Some v →
                            (v = 0 ∨ v = 1) ∧ k ∈ config.Name <$> targets c)).
  { intros k v H. cbn in H. by rewrite lookup_empty in H. }
  intros l s0 s' Hs0 HP H k v Hk.
  destruct (step_split l s0 s' H) as [Hg|Hs].
  - destruct (go_func_inv l s0 s' Hg) as (i & g & Hi & Hcase).
    destruct (g_pc g) as [|r|r|r|r|r|r|r] eqn:Epc; [| | | | | | |done].
    + destruct Hcase as (w & _ & ->). by apply HP.
    + destruct Hcase as (_ & ->). by apply HP.
    + destruct Hcase as (fault & _ & ->). cbn in Hk.
      destruct (storeResult_frame json_Marshal fault ctx
                  (config.Name (g_target g)) r s0)
        as (_ & _ & _ & _ & _ & _ & _ & Hm).
      rewrite Hm in Hk. by apply HP.
    + destruct Hcase as (_ & ->). by apply HP.
    + destruct Hcase as (_ & ->). by apply HP.
    + destruct Hcase as (_ & ->). cbn in Hk.
      apply lookup_insert_Some in Hk as [[<- <-]|[_ Hk]]; [|by apply HP].
      split; [apply up_value_range|].
      pose proof (pool_targets db s0 Hs0) as Ht.
      rewrite Forall_lookup in Ht. apply list_elem_of_fmap.
      exists (g_target g). split; [done|]. by eapply Ht.
    + destruct Hcase as (_ & ->). by apply HP.
  - destruct (sched_step_frame l s0 s' Hs) as (_ & _ & Hm & _).
    rewrite Hm in Hk. by apply HP.
Qed.

Local Abbreviation gauge_mark :=
  (fun p : GoPc => if past_metrics p then up_value <$> produced p else None).

(** With names all different, the gauge of a target holds the value for
    the result of its goroutine of the latest cycle, once that goroutine
    has set it. *)
Lemma gauge_latest db s :
  NoDup (config.Name <$> targets c) → reachable db s →
  ∀ i g v, pool s !! i = Some g → g_cycle g = cycle s →
           gauge_mark (g_pc g) = Some v →
           targetUp (metrics s) !! config.Name (g_target g) = Some v.
Proof.
  intros Hnd.
  apply (reachable_preserves
           (fun s =>
              ∀ i g v, pool s !! i = Some g → g_cycle g = cycle s →
                       gauge_mark (g_pc g) = Some v →
                       targetUp (metrics s) !! config.Name (g_target g)
                       = Some v)).
  { intros i g r H. by cbn in H. }
  intros l s0 s' Hs0 HP H.
  destruct (reachable_invariant Request NewRequestWithContext json_Marshal
              rev c ctx db s0 Hs0) as (old & cur & HI).
  destruct (step_split l s0 s' H) as [Hg|Hs].
  - destruct (go_func_inv l s0 s' Hg) as (i0 & g0 & Hi0 & Hcase).
    destruct (g_pc g0) as [|r|r|r|r|r|r|r] eqn:Epc; [| | | | | | |done].
    + destruct Hcase as (w & _ & ->).
      apply (settled_keep _ gauge_mark); [done|done|]. by cbn.
    + destruct Hcase as (_ & ->).
      apply (settled_keep _ gauge_mark); [done|done|]. by destruct rev.
    + destruct Hcase as (fault & _ & ->). cbn.
      destruct (storeResult_frame json_Marshal fault ctx
                  (config.Name (g_target g0)) r s0)
        as (_ & -> & _ & -> & _ & _ & _ & ->).
      apply (settled_keep _ gauge_mark); [done|done|]. by cbn.
    + destruct Hcase as (_ & ->).
      apply (settled_keep _ gauge_mark); [done|done|]. by cbn.
    + destruct Hcase as (_ & ->).
      apply (settled_keep _ gauge_mark); [done|done|]. by cbn.
    + destruct Hcase as (_ & ->).
      cbn [pool cycle metrics set_goroutine set_pool set_metrics].
      rewrite targetUp_Set_up.
      apply (settled_write _ gauge_mark); [done|done| |done].
      intros j g' Hj Hc' Hn.
      apply (current_names_inj s0 old cur j i0 g' g0 HI Hnd Hj Hi0 Hc');
        [|done].
      apply (running_current s0 old cur i0 g0 HI Hi0).
      unfold exited. by rewrite Epc.
    + destruct Hcase as (_ & ->).
      apply (settled_keep _ gauge_mark); [done|done|]. rewrite Epc. by cbn.
  - destruct (sched_step_frame l s0 s' Hs)
      as (_ & _ & -> & [[-> ->]|[[-> ->]|(t & rest & _ & -> & ->)]]).
    + done.
    + apply (settled_next _ gauge_mark). by eapply pool_cycle_le.
    + by apply (settled_spawn _ gauge_mark).
Qed.

(** X6: the [kenko_target_up] gauge only ever holds 0 or 1, and only
    under names of configured targets. With names all different, between
    cycles the gauge of every target is 1 exactly when the result in
    [c.results] for that target is healthy. *)
Theorem gauge_agrees_with_store db s :
  NoDup (config.Name <$> targets c) → reachable db s →
  (∀ k v, targetUp (metrics s) !! k = Some v →
          (v = 0 ∨ v = 1) ∧ k ∈ config.Name <$> targets c)
  ∧ (quiescent s = true →
     ∀ t, t ∈ targets c →
       ∃ r, results s !! config.Name t = Some r
            ∧ targetUp (metrics s) !! config.Name t
              = Some (if decide (Result.Status r = StatusHealthy)
                      then 1 else 0)).
Proof.
  intros Hnd Hs. split; [by apply (gauge_range db)|]. intros Hq t Ht.
  destruct (quiescent_settled Request NewRequestWithContext c ctx s)
    as (_ & _ & _ & Htg); [by eapply reachable_invariant|done|].
  destruct (Htg t Ht) as (_ & g & r & Hg & Hc & <- & Hpc & _ & Hres).
  exists r. split; [by apply Hres|].
  apply list_elem_of_lookup in Hg as [i Hi].
  apply (gauge_latest db s Hnd Hs i g); [done|done|]. by rewrite Hpc.
Qed.

(** *** The log *)

Lemma go_func_logger l s s' :
  go_func l s = Some s' →
  ∃ extra, logger s' = logger s ++ extra
           ∧ Forall (fun e => from_Run e = false) extra.
Proof.
  intros H. destruct (go_func_inv l s s' H) as (i & g & Hi & Hcase).
  destruct (g_pc g) as [|r|r|r|r|r|r|r]; [| | | | | | |done].
  - destruct Hcase as (w & _ & ->). exists []. by rewrite app_nil_r.
  - destruct Hcase as (_ & ->). exists []. by rewrite app_nil_r.
  - destruct Hcase as (fault & _ & ->).
    by destruct (storeResult_lines fault ctx (config.Name (g_target g)) r s)
      as [_ ?].
  - destruct Hcase as (_ & ->). exists []. by rewrite app_nil_r.
  - destruct Hcase as (_ & ->). exists []. by rewrite app_nil_r.
  - destruct Hcase as (_ & ->). exists []. by rewrite app_nil_r.
  - destruct Hcase as (_ & ->). eexists [_]. split; [done|].
    by repeat constructor.
Qed.

Local Abbreviation starting :=
  (Info_checker_starting (length (targets c)) (interval c)).

(** X7: the log begins with the "checker starting" line, which carries
    the number of targets and the interval; "checker stopping" is written
    once, when [Run] returns, and is then the last line for good: no
    goroutine logs after it. In between, no line comes from [Run]. *)
Theorem log_shape db s :
  reachable db s →
  match pc s with
  | Entry => logger s = []
  | Returned =>
      ∃ l0, logger s = starting :: l0 ++ [Info_checker_stopping]
            ∧ Forall (fun e => from_Run e = false) l0
  | _ =>
      ∃ l0, logger s = starting :: l0
            ∧ Forall (fun e => from_Run e = false) l0
  end.
Proof.
  apply (reachable_preserves
           (fun s =>
              match pc s with
              | Entry => logger s = []
              | Returned =>
                  ∃ l0, logger s = starting :: l0 ++ [Info_checker_stopping]
                        ∧ Forall (fun e => from_Run e = false) l0
              | _ =>
                  ∃ l0, logger s = starting :: l0
                        ∧ Forall (fun e => from_Run e = false) l0
              end)).
  { by cbn. }
  intros l s0 s' Hs0 HP H.
  destruct (step_split l s0 s' H) as [Hg|[Hs|[Hs|Hs]]].
  - destruct (reachable_invariant Request NewRequestWithContext json_Marshal
                rev c ctx db s0 Hs0) as (old & cur & HI).
    destruct (go_func_Inv Request NewRequestWithContext json_Marshal rev c
                ctx l s0 s' old cur HI Hg) as [[rest Epc] _].
    destruct (go_func_spec Request NewRequestWithContext json_Marshal rev c
                ctx l s0 s' Hg) as (_ & _ & _ & _ & _ & -> & _).
    destruct (go_func_logger l s0 s' Hg) as (extra & -> & Hx).
    rewrite Epc in HP |- *. destruct HP as (l0 & -> & Hl0).
    exists (l0 ++ extra). split; [done|]. by apply Forall_app.
  - unfold Run in Hs. destruct l; try discriminate Hs;
      destruct (pc s0) eqn:Epc0; try discriminate Hs.
    + injection Hs as <-. cbn. rewrite HP. by exists [].
    + destruct (ticker s0); try discriminate Hs.
      destruct (decide (0 < interval c)); injection Hs as <-; [|done].
      cbn. by rewrite Epc0.
    + destruct (ticker s0); try discriminate Hs.
      all: destruct (done s0); [|discriminate Hs]; injection Hs as <-; cbn.
      all: destruct HP as (l0 & -> & Hl0); by exists l0.
    + destruct (ticker s0) as [|[]|]; try discriminate Hs.
      by injection Hs as <-.
  - unfold checkAll in Hs. destruct l; try discriminate Hs;
      destruct (pc s0) as [|[|t rest]| | |]; try discriminate Hs.
    + by injection Hs as <-.
    + destruct (wg_zero s0); [|discriminate Hs]. by injection Hs as <-.
  - destruct l; try discriminate Hs; cbn in Hs.
    + destruct (ticker s0); try discriminate Hs. by injection Hs as <-.
    + by injection Hs as <-.
Qed.

(** *** The mirror follows the store *)

Variable json_Unmarshal : string → outcome Result.
Local Abbreviation Results := (Results json_Unmarshal).
Local Abbreviation parse := (parse json_Unmarshal).

(** The hash [kenko:results] on the Redis server. *)
Local Abbreviation hash_of :=
  (fun db : gmap string (gmap string string) => default ∅ (db !! redisKey)).

(** What a goroutine has put into the hash: the marshalled result, once
    [storeResult] has returned, if marshalling worked. *)
Local Abbreviation mirror_mark :=
  (fun p : GoPc =>
     r ← past_mirror p;
     match json_Marshal r with Ok data => Some data | Failed _ => None end).

Lemma storeResult_hash ctx0 name r s :
  hash_of (rdb (storeResult None ctx0 name r s))
  = match json_Marshal r with
    | Ok data => <[name := data]> (hash_of (rdb s))
    | Failed _ => hash_of (rdb s)
    end.
Proof.
  unfold storeResult. destruct (json_Marshal r) as [data|err]; [|done].
  cbn. by rewrite lookup_insert_eq.
Qed.

(** With names all different and no Redis write failing, the hash holds,
    for every goroutine of the latest cycle that is past [storeResult],
    the result it marshalled. *)
Lemma mirror_latest db ls s :
  rev = RedisBacked → NoDup (config.Name <$> targets c) →
  forallb no_fault ls = true → exec ls (init db) = Some s →
  ∀ i g v, pool s !! i = Some g → g_cycle g = cycle s →
           mirror_mark (g_pc g) = Some v →
           hash_of (rdb s) !! config.Name (g_target g) = Some v.
Proof.
  intros Hrev Hnd.
  apply (reachable_along no_fault
           (fun s =>
              ∀ i g v, pool s !! i = Some g → g_cycle g = cycle s →
                       mirror_mark (g_pc g) = Some v →
                       hash_of (rdb s) !! config.Name (g_target g)
                       = Some v)).
  { intros i g r H. by cbn in H. }
  intros l s0 s' Hok Hs0 HP H.
  destruct (reachable_invariant Request NewRequestWithContext json_Marshal
              rev c ctx db s0 Hs0) as (old & cur & HI).
  destruct (step_split l s0 s' H) as [Hg|Hs].
  - destruct (go_func_inv l s0 s' Hg) as (i0 & g0 & Hi0 & Hcase).
    destruct (g_pc g0) as [|r|r|r|r|r|r|r] eqn:Epc; [| | | | | | |done].
    + destruct Hcase as (w & _ & ->).
      apply (settled_keep _ mirror_mark); [done|done|]. by cbn.
    + destruct Hcase as (_ & ->).
      apply (settled_keep _ mirror_mark); [done|done|]. by rewrite Hrev.
    + destruct Hcase as (fault & -> & ->).
      destruct fault as [err|]; [discriminate Hok|].
      cbn [pool cycle rdb set_goroutine set_pool].
      destruct (storeResult_frame json_Marshal None ctx
                  (config.Name (g_target g0)) r s0)
        as (_ & -> & _ & -> & _).
      rewrite storeResult_hash.
      destruct (json_Marshal r) as [data|err] eqn:Em.
      * apply (settled_write _ mirror_mark); [done|done| |by cbn; rewrite Em].
        intros j g' Hj Hc' Hn.
        apply (current_names_inj s0 old cur j i0 g' g0 HI Hnd Hj Hi0 Hc');
          [|done].
        apply (running_current s0 old cur i0 g0 HI Hi0).
        unfold exited. by rewrite Epc.
      * apply (settled_keep _ mirror_mark); [done|done|].
        cbn. by rewrite Em.
    + destruct Hcase as (_ & ->).
      apply (settled_keep _ mirror_mark); [done|done|]. by rewrite Epc.
    + destruct Hcase as (_ & ->).
      apply (settled_keep _ mirror_mark); [done|done|]. by rewrite Epc.
    + destruct Hcase as (_ & ->).
      apply (settled_keep _ mirror_mark); [done|done|]. by rewrite Epc.
    + destruct Hcase as (_ & ->).
      apply (settled_keep _ mirror_mark); [done|done|]. by rewrite Epc.
  - destruct (sched_step_frame l s0 s' Hs)
      as (_ & -> & _ & [[-> ->]|[[-> ->]|(t & rest & _ & -> & ->)]]).
    + done.
    + apply (settled_next _ mirror_mark). by eapply pool_cycle_le.
    + by apply (settled_spawn _ mirror_mark).
Qed.

(** The checker only adds fields named after targets to the hash. *)
Lemma mirror_keys db s :
  reachable db s →
  ∀ k, is_Some (hash_of (rdb s) !! k) →
       is_Some (hash_of db !! k) ∨ k ∈ config.Name <$> targets c.
Proof.
  apply (reachable_preserves
           (fun s => ∀ k, is_Some (hash_of (rdb s) !! k) →
                          is_Some (hash_of db !! k)
                          ∨ k ∈ config.Name <$> targets c)).
  { intros k H. by left. }
  intros l s0 s' Hs0 HP H k Hk.
  destruct (step_split l s0 s' H) as [Hg|Hs].
  - destruct (go_func_inv l s0 s' Hg) as (i & g & Hi & Hcase).
    destruct (g_pc g) as [|r|r|r|r|r|r|r] eqn:Epc; [| | | | | | |done].
    + destruct Hcase as (w & _ & ->). by apply HP.
    + destruct Hcase as (_ & ->). by apply HP.
    + destruct Hcase as (fault & _ & ->). cbn [rdb set_goroutine set_pool] in Hk.
      destruct fault as [err|].
      * unfold storeResult in Hk.
        destruct (json_Marshal r); cbn in Hk; by apply HP.
      * rewrite storeResult_hash in Hk.
        destruct (json_Marshal r); [|by apply HP].
        apply lookup_insert_is_Some' in Hk as [<-|Hk]; [|by apply HP].
        right. pose proof (pool_targets db s0 Hs0) as Ht.
        rewrite Forall_lookup in Ht. apply list_elem_of_fmap.
        exists (g_target g). split; [done|]. by eapply Ht.
    + destruct Hcase as (_ & ->). by apply HP.
    + destruct Hcase as (_ & ->). by apply HP.
    + destruct Hcase as (_ & ->). by apply HP.
    + destruct Hcase as (_ & ->). by apply HP.
  - destruct (sched_step_frame l s0 s' Hs) as (_ & Hr & _).
    rewrite Hr in Hk. by apply HP.
Qed.

(** X8: on the Redis-backed checker with names all different, started on
    a Redis without the hash: if no Redis command fails and every result
    in the store marshals to data that unmarshals to the same result,
    then between cycles the Redis-first [Results] returns exactly the
    in-memory store. *)
Theorem mirror_agrees_with_store db ls s :
  rev = RedisBacked → NoDup (config.Name <$> targets c) →
  db !! redisKey = None →
  forallb no_fault ls = true → exec ls (init db) = Some s →
  (∀ k r, results s !! k = Some r →
          ∃ data, json_Marshal r = Ok data ∧ json_Unmarshal data = Ok r) →
  quiescent s = true →
  Results rev None s = results s.
Proof.
  intros Hrev Hnd Hdb Hok Hex Hm Hq.
  assert (Hs : reachable db s) by by exists ls.
  pose proof (reachable_invariant Request NewRequestWithContext json_Marshal
                rev c ctx db s Hs) as HI.
  destruct (quiescent_settled Request NewRequestWithContext c ctx s HI Hq)
    as (_ & _ & _ & Htg).
  assert (Hagree : ∀ k, hash_of (rdb s) !! k ≫= parse = results s !! k).
  { intros k.
    destruct (decide (k ∈ config.Name <$> targets c)) as [Hin|Hout].
    - apply list_elem_of_fmap in Hin as (t & -> & Ht).
      destruct (Htg t Ht) as (_ & g & r & Hg & Hc & <- & Hpc & _ & Hres).
      rewrite (Hres Hnd). destruct (Hm _ _ (Hres Hnd)) as (data & Hd & Hu).
      apply list_elem_of_lookup in Hg as [i Hi].
      rewrite (mirror_latest db ls s Hrev Hnd Hok Hex i g data Hi Hc).
      + cbn. unfold parse. by rewrite Hu.
      + rewrite Hpc. cbn. by rewrite Hd.
    - destruct (hash_of (rdb s) !! k) as [d|] eqn:Hk.
      + destruct (mirror_keys db s Hs k) as [[x Hx]|?]; [by eauto| |done].
        cbn in Hx. rewrite Hdb in Hx. cbn in Hx. by rewrite lookup_empty in Hx.
      + destruct HI as (old & cur & [_ _ _ _ _ Isub _ _ _]).
        destruct (results s !! k) as [r|] eqn:Hr.
        * destruct Hout. apply Isub. by eauto.
        * cbn beta. cbn beta in Hk. by rewrite Hk. }
  rewrite Hrev. unfold Results, HGetAll.
  destruct (decide (0 < size (default ∅ (rdb s !! redisKey)))%nat).
  - rewrite (decode_omap json_Unmarshal). apply map_eq. intros k.
    rewrite lookup_omap. apply Hagree.
  - apply copy_map_id.
Qed.

(** *** Two targets with one name *)

Lemma exec_cons l ls s s1 :
  step l s = Some s1 → exec (l :: ls) s = exec ls s1.
Proof. intros H. cbn. by rewrite H. Qed.

(** One whole first cycle of a checker with two targets, the goroutine
    [first] storing before the other. *)
Lemma two_target_cycle db t1 t2 w1 w2 (first : bool) :
  rev = InMemory → targets c = [t1; t2] →
  ∃ s, exec [RunStart; Spawn; Spawn; GoCheck 0 w1; GoCheck 1 w2;
             GoStore (if first then 0 else 1)%nat;
             GoStore (if first then 1 else 0)%nat;
             GoObserve 0; GoObserve 1; GoInc 0; GoInc 1; GoSet 0; GoSet 1;
             GoLog 0; GoLog 1; WaitReturn]
         (init db) = Some s
       ∧ pc s = AtSelect ∧ completed s = 1%nat
       ∧ results s
         = if first
           then <[config.Name t2 := fst (check t2 w2)]>
                  (<[config.Name t1 := fst (check t1 w1)]> ∅)
           else <[config.Name t1 := fst (check t1 w1)]>
                  (<[config.Name t2 := fst (check t2 w2)]> ∅).
Proof.
  intros Hrev Htg.
  destruct first.
  all: eexists; split;
    [ do 16 (erewrite exec_cons
               by (cbv [step Run checkAll go_func];
                   rewrite ?Hrev, ?Htg;
                   cbv [mbind option_bind init pc pool cycle completed ticker
                          results metrics logger rdb done
                          set_pc set_pool set_cycle set_completed set_ticker
                          set_results set_metrics set_goroutine log
                          lookup list_lookup insert list_insert app length
                          wg_zero forallb exited g_pc g_cycle g_target
                          negb orb andb Nat.eqb];
                   reflexivity));
      reflexivity
    | repeat split; reflexivity ].
Qed.

(** X9: with two targets of the same name, one cycle leaves one entry
    for both, and which result it holds depends on which goroutine takes
    the lock last: the same two probes, stored in the other order, leave
    the other result. *)
Theorem duplicate_names_last_store_wins db t1 t2 w1 w2 :
  rev = InMemory → targets c = [t1; t2] →
  config.Name t1 = config.Name t2 →
  ∃ sa sb,
    reachable db sa ∧ reachable db sb
    ∧ quiescent sa = true ∧ quiescent sb = true
    ∧ completed sa = 1%nat ∧ completed sb = 1%nat
    ∧ results sa = {[config.Name t1 := fst (check t1 w1)]}
    ∧ results sb = {[config.Name t1 := fst (check t2 w2)]}.
Proof.
  intros Hrev Htg Hn.
  destruct (two_target_cycle db t1 t2 w1 w2 false Hrev Htg)
    as (sa & Ha & Hpa & Hca & Hra).
  destruct (two_target_cycle db t1 t2 w1 w2 true Hrev Htg)
    as (sb & Hb & Hpb & Hcb & Hrb).
  exists sa, sb. unfold quiescent. rewrite Hpa, Hpb, Hra, Hrb.
  repeat split; try done; try by eexists.
  - by rewrite <- Hn, insert_insert_eq, insert_empty.
  - by rewrite <- Hn, insert_insert_eq, insert_empty.
Qed.

(** *** What readers get from the hash *)


(** X11: a write-through that succeeds, read back: whatever the hash and
    the in-memory store held, the Redis-first [Results] then returns the
    decodable fields of the hash with the new field in, and nothing of
    the in-memory store. *)
Theorem storeResult_read_back ctx0 name r data s :
  json_Marshal r = Ok data →
  let s' := storeResult None ctx0 name r s in
  Results RedisBacked None s'
  = omap parse (<[name := data]> (hash_of (rdb s)))
  ∧ Results RedisBacked None s' !! name = parse data
  ∧ results s' = results s.
Proof.
  intros Hm s'.
  assert (Hh : hash_of (rdb s') = <[name := data]> (hash_of (rdb s))).
  { subst s'. by rewrite storeResult_hash, Hm. }
  assert (HR : Results RedisBacked None s'
               = omap parse (<[name := data]> (hash_of (rdb s)))).
  { rewrite <- Hh. apply Results_redis_hit; [done|].
    rewrite Hh. apply insert_non_empty. }
  split; [done|]. split.
  - by rewrite HR, lookup_omap, lookup_insert_eq.
  - apply (storeResult_frame json_Marshal).
Qed.

(** *** The status handler *)

Variable Format_RFC3339 : Time → string.
Local Abbreviation to_targetResult := (to_targetResult Format_RFC3339).
Local Abbreviation status_resp := (status_resp Format_RFC3339).
Local Abbreviation handleStatus :=
  (handleStatus json_Unmarshal rev Format_RFC3339).

(** The entries of the response are those of the mapping, one each, in
    some order. *)
Lemma status_resp_perm (m : gmap string Result) :
  Targets (status_resp m) ≡ₚ to_targetResult <$> (map_to_list m).*2.
Proof.
  unfold status_resp. cbn [Targets].
  apply (map_fold_weak_ind
           (fun out m => out ≡ₚ to_targetResult <$> (map_to_list m).*2)).
  - by rewrite map_to_list_empty.
  - intros k r m' out Hk IH.
    rewrite map_to_list_insert by done. cbn.
    rewrite <- IH. symmetry. apply Permutation_cons_append.
Qed.

(** The name and the URL of an entry of the response. *)
Local Abbreviation entry_id :=
  (fun e : targetResult => (targetResult.Name e, targetResult.URL e)).
Local Abbreviation target_id :=
  (fun t : config.Target => (config.Name t, config.URL t)).

(** X12: with names all different, once a cycle of the in-memory checker
    has completed, the response of [handleStatus] has exactly one entry
    per configured target, with that target's name and URL, and no other
    entry, whether or not a later cycle is running. *)
Theorem status_lists_each_target_once db s fault :
  rev = InMemory → NoDup (config.Name <$> targets c) → reachable db s →
  (1 ≤ completed s)%nat →
  ∃ entries,
    handleStatus fault s
    = JObject [("targets", JArray (encode_targetResult <$> entries))]
    ∧ entry_id <$> entries ≡ₚ target_id <$> targets c.
Proof.
  intros Hrev Hnd Hs HN.
  exists (Targets (status_resp (Results rev fault s))). split; [done|].
  rewrite Hrev, Results_memory.
  rewrite status_resp_perm.
  destruct (reachable_invariant Request NewRequestWithContext json_Marshal
              rev c ctx db s Hs) as (old & cur & [_ _ _ _ Iprod Isub _ Ifull _]).
  pose proof (pool_targets db s Hs) as Ht. rewrite Forall_forall in Ht.
  rewrite Forall_forall in Iprod.
  assert (Horigin : ∀ k r, results s !! k = Some r →
            ∃ t, t ∈ targets c ∧ config.Name t = k
                 ∧ Result.Target r = k ∧ Result.URL r = config.URL t).
  { intros k r Hk.
    destruct (store_written_by db s Hs k r Hk) as (g & Hg & Hn & Hst).
    destruct (Iprod g Hg r (stored_produced _ _ Hst)) as [w ->].
    destruct (check_fields (g_target g) w) as [E1 E2].
    exists (g_target g). repeat split; auto. by rewrite E1. }
  assert (Hnames : ∀ t t', t ∈ targets c → t' ∈ targets c →
                           config.Name t = config.Name t' → t = t').
  { intros t t' Hin Hin' E.
    apply list_elem_of_lookup in Hin as [i Hi].
    apply list_elem_of_lookup in Hin' as [j Hj].
    assert (i = j) as ->; [|congruence].
    apply (NoDup_lookup _ i j (config.Name t) Hnd);
      rewrite list_lookup_fmap; [by rewrite Hi|by rewrite Hj, E]. }
  apply NoDup_Permutation.
  - apply (NoDup_fmap_1 fst). rewrite <- !list_fmap_compose.
    erewrite list_fmap_ext; [apply NoDup_fst_map_to_list|].
    intros i [k r] Hi. cbn.
    assert (Hk : results s !! k = Some r).
    { apply elem_of_map_to_list. by eapply list_elem_of_lookup_2. }
    by destruct (Horigin k r Hk) as (t & _ & _ & -> & _).
  - apply (NoDup_fmap_1 fst). by rewrite <- list_fmap_compose.
  - intros [n u]. rewrite !list_elem_of_fmap. split.
    + intros (e & E & He). apply list_elem_of_fmap in He as (r & -> & Hr).
      apply list_elem_of_fmap in Hr as ([k r'] & -> & Hkr).
      apply elem_of_map_to_list in Hkr. cbn in E.
      destruct (Horigin k r' Hkr) as (t & Hin & Hn & HT & HU).
      exists t. split; [|done]. injection E as -> ->. by rewrite HT, HU, Hn.
    + intros (t & E & Hin). injection E as -> ->.
      destruct (Ifull HN t Hin) as [r Hr].
      destruct (Horigin _ r Hr) as (t' & Hin' & Hn & HT & HU).
      assert (t' = t) as -> by by apply Hnames.
      exists (to_targetResult r). split; [cbn; by rewrite HT, HU|].
      apply list_elem_of_fmap. exists r. split; [done|].
      apply list_elem_of_fmap. exists (config.Name t, r). split; [done|].
      by apply elem_of_map_to_list.
Qed.

(** X13: the entry [handleStatus] writes for the result of a probe has
    one of three sets of keys. A probe that got no response gives
    ["error"] and no ["status_code"]; a probe that got a response gives
    no ["error"], and ["status_code"] unless the code is 0. No entry has
    both keys. *)
Theorem status_entry_keys target w :
  let r := fst (check target w) in
  let keys := json_keys (encode_targetResult (to_targetResult r)) in
  (Result.Error r ≠ "" ∧ Result.StatusCode r = 0
   ∧ keys = ["name"; "url"; "status"; "latency_ms"; "error"; "checked_at"])
  ∨ (Result.Error r = "" ∧ Result.StatusCode r ≠ 0
     ∧ keys = ["name"; "url"; "status"; "status_code"; "latency_ms";
               "checked_at"])
  ∨ (Result.Error r = "" ∧ Result.StatusCode r = 0
     ∧ keys = ["name"; "url"; "status"; "latency_ms"; "checked_at"]).
Proof.
  intros r keys. subst r keys.
  destruct (check_paths Request NewRequestWithContext (client c) ctx
              target w)
    as [[err E]|[(req & err & E1 & E2)|(req & resp & E1 & E2)]].
  - rewrite (check_bad_request _ _ _ _ _ _ _ E). left.
    unfold encode_targetResult, to_targetResult, json_keys.
    cbn [Result.Error Result.StatusCode targetResult.Error
           targetResult.StatusCode].
    destruct (decide (0 = 0)) as [_|N]; [|done].
    destruct (decide ("bad request: " +:+ err = "")) as [N|_]; [done|].
    done.
  - rewrite (check_request_failed _ _ _ _ _ _ _ _ E1 E2). left.
    unfold encode_targetResult, to_targetResult, json_keys.
    cbn [Result.Error Result.StatusCode targetResult.Error
           targetResult.StatusCode].
    destruct (decide (0 = 0)) as [_|N]; [|done].
    destruct (decide ("request failed: " +:+ err = "")) as [N|_]; [done|].
    done.
  - rewrite (check_response _ _ _ _ _ _ _ _ E1 E2). right.
    unfold encode_targetResult, to_targetResult, json_keys.
    cbn [Result.Error Result.StatusCode targetResult.Error
           targetResult.StatusCode].
    destruct (decide ("" = "")) as [_|N]; [|done].
    destruct (decide (http.StatusCode resp = 0)) as [Z0|NZ].
    + right. done.
    + left. done.
Qed.
End SchedulerMore.

(** ** The further properties, on the demo checkers *)


Lemma store_entries_are_probe_results_witness :
  ∃ t w, t ∈ targets Demo.checker ∧ config.Name t = "fail"
    ∧ Result.mk "fail" "http://x/500" StatusUnhealthy 500 7 "" 1014
      = fst (check string Demo.NewRequestWithContext (client Demo.checker)
               Demo.ctx t w)
    ∧ config.URL t = "http://x/500".
Proof.
  destruct (store_entries_are_probe_results string
              Demo.NewRequestWithContext Demo.json_Marshal InMemory
              Demo.checker Demo.ctx ∅
              (Demo.state_after InMemory Demo.first_cycle) "fail"
              (Result.mk "fail" "http://x/500" StatusUnhealthy 500 7 ""
                 1014))
    as (t & w & Ht & Hn & Hr & _ & Hu).
  - exists Demo.first_cycle. vm_compute. reflexivity.
  - vm_compute. reflexivity.
  - exists t, w. by repeat split.
Defined.

Lemma no_targets_no_entries_witness :
  let s := default (init ∅)
             (exec string Demo.NewRequestWithContext Demo.json_Marshal
                InMemory Cases.idle Demo.ctx Cases.idle_cycle (init ∅)) in
  pool s = [] ∧ results s = ∅.
Proof.
  apply (no_targets_no_entries string Demo.NewRequestWithContext
           Demo.json_Marshal InMemory Cases.idle Demo.ctx ∅).
  - reflexivity.
  - exists Cases.idle_cycle. vm_compute. reflexivity.
Defined.

Lemma entries_never_removed_witness :
  let s := Demo.state_after InMemory Demo.first_cycle in
  let s' := Demo.state_after InMemory Demo.second_cycle_running in
  (∀ k, is_Some (results s !! k) → is_Some (results s' !! k))
  ∧ (cycle s ≤ cycle s')%nat ∧ (completed s ≤ completed s')%nat
  ∧ (length (pool s) ≤ length (pool s'))%nat.
Proof.
  apply (entries_never_removed string Demo.NewRequestWithContext
           Demo.json_Marshal InMemory Demo.checker Demo.ctx
           [Tick; SelectTick; Spawn; Spawn; GoCheck 3 Demo.net; Tick; Spawn;
            GoStore 3]).
  vm_compute. reflexivity.
Defined.

Lemma every_probe_counted_once_witness :
  let s := Demo.state_after InMemory Demo.first_cycle in
  length (pool s) = (completed s * 3)%nat
  ∧ durations_observed (metrics s) = length (pool s)
  ∧ checks_counted (metrics s) = length (pool s)
  ∧ lines_complete (logger s) = length (pool s).
Proof.
  intros s.
  destruct (every_probe_counted_once string Demo.NewRequestWithContext
              Demo.json_Marshal InMemory Demo.checker Demo.ctx ∅ s)
    as (_ & _ & _ & H).
  - exists Demo.first_cycle. vm_compute. reflexivity.
  - apply H. reflexivity.
Defined.

Lemma gauge_agrees_with_store_witness :
  let s := Demo.state_after InMemory Demo.first_cycle in
  ∃ r, results s !! "fail" = Some r
       ∧ targetUp (metrics s) !! "fail"
         = Some (if decide (Result.Status r = StatusHealthy) then 1 else 0).
Proof.
  intros s.
  destruct (gauge_agrees_with_store string Demo.NewRequestWithContext
              Demo.json_Marshal InMemory Demo.checker Demo.ctx ∅ s)
    as [_ H].
  - apply (bool_decide_unpack _). vm_compute. exact I.
  - exists Demo.first_cycle. vm_compute. reflexivity.
  - apply (H eq_refl Demo.fail).
    apply (list_elem_of_lookup_2 _ 1%nat). reflexivity.
Defined.

Lemma log_shape_witness :
  let s := Demo.state_after InMemory (Demo.cancelled ++ [SelectDone]) in
  ∃ l0, logger s
        = Info_checker_starting 3 (30 * Second)
          :: l0 ++ [Info_checker_stopping]
        ∧ Forall (fun e => from_Run e = false) l0.
Proof.
  intros s.
  apply (log_shape string Demo.NewRequestWithContext Demo.json_Marshal
           InMemory Demo.checker Demo.ctx ∅ s).
  exists (Demo.cancelled ++ [SelectDone]). vm_compute. reflexivity.
Defined.

Lemma mirror_agrees_with_store_witness :
  Results Cases.json_Unmarshal RedisBacked None Cases.after_mirrored_cycle
  = results Cases.after_mirrored_cycle.
Proof.
  apply (mirror_agrees_with_store string Demo.NewRequestWithContext
           Cases.json_Marshal RedisBacked Cases.single Demo.ctx
           Cases.json_Unmarshal ∅ Cases.mirrored_cycle).
  - reflexivity.
  - apply (bool_decide_unpack _). vm_compute. exact I.
  - reflexivity.
  - reflexivity.
  - vm_compute. reflexivity.
  - intros k r H.
    assert (E : results Cases.after_mirrored_cycle
                = {[ "ok" := Cases.probe_ok ]}) by (vm_compute; reflexivity).
    rewrite E in H. apply lookup_singleton_Some in H as [_ <-].
    exists "{ok}". split; vm_compute; reflexivity.
  - reflexivity.
Defined.

Lemma duplicate_names_last_store_wins_witness :
  ∃ sa sb,
    reachable string Demo.NewRequestWithContext Demo.json_Marshal InMemory
      Cases.twins Demo.ctx ∅ sa
    ∧ reachable string Demo.NewRequestWithContext Demo.json_Marshal InMemory
        Cases.twins Demo.ctx ∅ sb
    ∧ Result.Status <$> results sa !! "ok" = Some StatusHealthy
    ∧ Result.Status <$> results sb !! "ok" = Some StatusUnhealthy.
Proof.
  destruct (duplicate_names_last_store_wins string
              Demo.NewRequestWithContext Demo.json_Marshal InMemory
              Cases.twins Demo.ctx ∅ Demo.ok Cases.twin Demo.net Demo.net)
    as (sa & sb & Ha & Hb & _ & _ & _ & _ & Hra & Hrb).
  - reflexivity.
  - reflexivity.
  - reflexivity.
  - exists sa, sb. rewrite Hra, Hrb. by repeat split.
Defined.


Lemma storeResult_read_back_witness :
  let s' := storeResult Cases.json_Marshal None Demo.ctx "ok"
              Cases.probe_ok (init Demo.stale_db) in
  Results Cases.json_Unmarshal RedisBacked None s' !! "ok"
  = Some Cases.probe_ok
  ∧ results s' = ∅.
Proof.
  destruct (storeResult_read_back Cases.json_Marshal Cases.json_Unmarshal
              Demo.ctx "ok" Cases.probe_ok "{ok}" (init Demo.stale_db))
    as (_ & H & Hr).
  - vm_compute. reflexivity.
  - split; [|exact Hr]. rewrite H. vm_compute. reflexivity.
Defined.

Lemma status_lists_each_target_once_witness :
  ∃ entries,
    handleStatus Demo.json_Unmarshal InMemory Cases.Format_RFC3339 None
      (Demo.state_after InMemory Demo.first_cycle)
    = JObject [("targets", JArray (encode_targetResult <$> entries))]
    ∧ (fun e => (targetResult.Name e, targetResult.URL e)) <$> entries
      ≡ₚ [("ok", "http://x/200"); ("fail", "http://x/500");
          ("down", "http://unreachable")].
Proof.
  apply (status_lists_each_target_once string Demo.NewRequestWithContext
           Demo.json_Marshal InMemory Demo.checker Demo.ctx
           Demo.json_Unmarshal Cases.Format_RFC3339 ∅).
  - reflexivity.
  - apply (bool_decide_unpack _). vm_compute. exact I.
  - exists Demo.first_cycle. vm_compute. reflexivity.
  - vm_compute. lia.
Defined.

Lemma nonpositive_interval_one_cycle_witness :
  let s := default (init ∅)
             (exec string Demo.NewRequestWithContext Demo.json_Marshal
                InMemory Cases.hasty Demo.ctx Cases.hasty_cycle (init ∅)) in
  ticker s = NotCreated ∧ pc s ≠ Returned ∧ (cycle s ≤ 1)%nat
  ∧ completed s = 1%nat.
Proof.
  intros s.
  destruct (nonpositive_interval_one_cycle string Demo.NewRequestWithContext
              Demo.json_Marshal InMemory Cases.hasty Demo.ctx ∅ s)
    as (H1 & H2 & H3 & H4 & _).
  - cbn. lia.
  - exists Cases.hasty_cycle. vm_compute. reflexivity.
  - split; [exact H1|]. split; [exact H2|]. split; [exact H3|].
    apply H4. vm_compute. reflexivity.
Defined.

(** ** The cancellation signal, on the demo checker *)



(** A checker whose interval is zero: the first cycle completes, then
    [time.NewTicker] panics, and [Run] neither selects nor returns. *)
Example zero_interval_panics :
  let run := exec string Demo.NewRequestWithContext Demo.json_Marshal
               InMemory Cases.hasty Demo.ctx in
  let s := default (init ∅) (run Cases.hasty_cycle (init ∅)) in
  pc s = Panicked ∧ completed s = 1%nat ∧ is_Some (results s !! "ok")
  ∧ run [Cancel; SelectDone] s = None ∧ run [SelectTick] s = None
  ∧ run [Tick] s = None.
Proof. vm_compute. repeat split; try reflexivity. by eexists. Qed.

(** Between [Observe] and [Inc] the histogram is ahead of the counters. *)
Example histogram_ahead_of_counters :
  let ls := [RunStart; Spawn; GoCheck 0 Demo.net; GoStore 0; GoObserve 0] in
  let s := Demo.state_after InMemory ls in
  Demo.run InMemory ls = Some s
  ∧ durations_observed (metrics s) = 1%nat
  ∧ checks_counted (metrics s) = 0%nat.
Proof. vm_compute. repeat split; reflexivity. Qed.
